(** * Lissajous: a shallow embedding of [lissajous.go]

    The program renders a Lissajous curve onto the frames of an animated GIF.
    This development embeds its data model and its functions ([min], [paint],
    [lissajous], [main]) and proves properties of them.

    Modelling choices, all taken from the Go source:
    - [int] is the 64-bit signed integer of the usual Go targets: a [Z] kept
      in range by [Int.wrap] after every arithmetic operation;
    - [float64] is IEEE 754 binary64: Rocq's primitive [float], whose
      operations round to nearest, ties to even, as Go's do; each operation
      rounds by itself, as on amd64 (Go may fuse [x*y + z] on other
      targets);
    - a slice is a [list]; indexing out of range panics in Go, which is the
      result [Panic] here;
    - the loop over [t] need not terminate, so it takes fuel and yields
      [OutOfFuel] when the fuel is spent;
    - [math.Sin], the conversion of a float that does not fit [int], the
      encoder [gif.EncodeAll] and [os.Create] do not belong to the program:
      they are variables of the section [Program].

    The file has three parts: the program, the vocabulary of the properties
    (predicates, and the inputs of the examples), and the proofs. The
    statements on floats rest on the specification of the primitive floats
    ([FloatAxioms]), which relates them to the IEEE 754 model [SpecFloat]. *)

From Stdlib Require Import ZArith Lia Floats String QArith Qround.
From stdpp Require Import base list.

Set Warnings "-inexact-float".

Open Scope Z_scope.

(** ** Results of Go computations *)

Inductive result (A : Type) : Type :=
| Ok (a : A)
| Panic
| OutOfFuel.

Arguments Ok {A} a.
Arguments Panic {A}.
Arguments OutOfFuel {A}.

#[global] Instance result_bind : MBind result :=
  fun A B (k : A -> result B) (r : result A) =>
    match r with
    | Ok a => k a
    | Panic => Panic
    | OutOfFuel => OutOfFuel
    end.

Definition len {A : Type} (s : list A) : Z := Z.of_nat (length s).

(** An index expression [s[i]] on a slice. *)
Definition index {A : Type} (s : list A) (i : Z) : result A :=
  if (i <? 0) || (len s <=? i) then Panic
  else match s !! Z.to_nat i with
       | Some a => Ok a
       | None => Panic
       end.

(** A loop over the elements of a slice, threading a state. *)
Fixpoint for_range {A S : Type} (body : A -> S -> result S) (s : list A)
    (st : S) : result S :=
  match s with
  | [] => Ok st
  | a :: s' => st' ← body a st; for_range body s' st'
  end.

(** ** The type [int] *)

Module Int.

Definition min_int : Z := - 2 ^ 63.
Definition max_int : Z := 2 ^ 63 - 1.

Definition wrap (z : Z) : Z := (z + 2 ^ 63) mod 2 ^ 64 - 2 ^ 63.

Definition add (a b : Z) : Z := wrap (a + b).
Definition sub (a b : Z) : Z := wrap (a - b).
Definition mul (a b : Z) : Z := wrap (a * b).

Definition in_range (z : Z) : Prop := min_int <= z <= max_int.

End Int.

(** ** The type [float64] *)

Module F64.

(** [math.Pi] as a [float64]: 3.141592653589793. *)
Definition Pi : float := 0x1.921fb54442d18p+1%float.

(** The integer part of a finite float, rounded toward zero. *)
Definition trunc (f : float) : option Z :=
  match Prim2SF f with
  | S754_zero _ => Some 0
  | S754_finite s m e =>
      let a := Z.shiftl (Zpos m) e in Some (if s then - a else a)
  | S754_infinity _ | S754_nan => None
  end.

(** The value of a finite float, as a rational number. *)
Definition toQ (f : float) : option Q :=
  match Prim2SF f with
  | S754_zero _ => Some (inject_Z 0)
  | S754_finite s m e =>
      let a := if s then Zneg m else Zpos m in
      Some (if 0 <=? e then inject_Z (a * 2 ^ e)
            else Qmake a (Z.to_pos (2 ^ (- e))))
  | S754_infinity _ | S754_nan => None
  end.

(** The conversion [float64(n)] of an [int]: the nearest float, ties to
    even. *)
Definition of_int (n : Z) : float :=
  if n =? Int.min_int then (- 0x1p+63)%float
  else if n <? 0 then (- of_uint63 (Uint63.of_Z (- n)))%float
  else of_uint63 (Uint63.of_Z n).

End F64.

(** ** The colours of [image/color] and the palette *)

Record RGBA : Type := mkRGBA { cR : Z; cG : Z; cB : Z; cA : Z }.

Definition palette : list RGBA :=
  [ mkRGBA 0x2c 0x2f 0x34 0xff;
    mkRGBA 0x3b 0x3e 0x42 0xff;
    mkRGBA 0x4a 0x4d 0x50 0xff;
    mkRGBA 0x59 0x5c 0x5e 0xff;
    mkRGBA 0x68 0x6b 0x6c 0xff;
    mkRGBA 0x77 0x7a 0x7a 0xff;
    mkRGBA 0x86 0x89 0x88 0xff;
    mkRGBA 0x95 0x98 0x96 0xff;
    mkRGBA 0xa4 0xa7 0x94 0xff;
    mkRGBA 0xb3 0xb6 0xa2 0xff;
    mkRGBA 0xc2 0xc5 0xb0 0xff;
    mkRGBA 0xd1 0xd4 0xbe 0xff;
    mkRGBA 0xe0 0xe3 0xcc 0xff;
    mkRGBA 0xff 0xf2 0xda 0xff;
    mkRGBA 0xff 0xf1 0xe8 0xff;
    mkRGBA 0xff 0xff 0xff 0xff ].

(** [color.RGBA.RGBA]: the channels widened to 16 bits. *)
Definition RGBA16 (c : RGBA) : Z * Z * Z * Z :=
  (cR c * 257, cG c * 257, cB c * 257, cA c * 257).

(** [sqDiff] on [uint32]. *)
Definition sqDiff (x y : Z) : Z :=
  let d := (x - y) mod 2 ^ 32 in
  Z.shiftr ((d * d) mod 2 ^ 32) 2.

(** The loop of [color.Palette.Index]: the index of the colour of the
    palette closest to [c], the first exact match ending the search. *)
Fixpoint Index_from (p : list RGBA) (c : RGBA) (i ret bestSum : Z) : Z :=
  match p with
  | [] => ret
  | v :: p' =>
      let '(cr, cg, cb, ca) := RGBA16 c in
      let '(vr, vg, vb, va) := RGBA16 v in
      let sum := (sqDiff cr vr + sqDiff cg vg + sqDiff cb vb + sqDiff ca va)
                 mod 2 ^ 32 in
      if sum <? bestSum then
        if sum =? 0 then i else Index_from p' c (i + 1) i sum
      else Index_from p' c (i + 1) ret bestSum
  end.

Definition Index (p : list RGBA) (c : RGBA) : Z :=
  Index_from p c 0 0 (2 ^ 32 - 1).

(** ** Rectangles and paletted images of [image] *)

Record Rectangle : Type :=
  mkRectangle { MinX : Z; MinY : Z; MaxX : Z; MaxY : Z }.

(** [image.Rect]: the corners are swapped where needed, so that the
    rectangle is well formed. *)
Definition image_Rect (x0 y0 x1 y1 : Z) : Rectangle :=
  let '(x0, x1) := if x1 <? x0 then (x1, x0) else (x0, x1) in
  let '(y0, y1) := if y1 <? y0 then (y1, y0) else (y0, y1) in
  mkRectangle x0 y0 x1 y1.

Definition Dx (r : Rectangle) : Z := Int.sub (MaxX r) (MinX r).
Definition Dy (r : Rectangle) : Z := Int.sub (MaxY r) (MinY r).

(** [Point{x, y}.In(r)]. *)
Definition In_rect (x y : Z) (r : Rectangle) : bool :=
  (MinX r <=? x) && (x <? MaxX r) && (MinY r <=? y) && (y <? MaxY r).

Record Paletted : Type :=
  mkPaletted { Pix : list Z; Stride : Z; Rect : Rectangle; Palette : list RGBA }.

(** The largest allocation of the runtime on amd64, [maxAlloc]: [2^48]
    bytes. *)
Definition max_alloc : Z := 2 ^ 48.

(** [make([]T, n)] for elements of [elem_size] bytes, every element [zero]:
    [makeslice] panics when the length is negative and when the bytes of the
    slice exceed the largest allocation. An allocation within this limit is
    taken to succeed: the memory of the machine is not modelled. *)
Definition make {A : Type} (elem_size : Z) (zero : A) (n : Z)
    : result (list A) :=
  if (n <? 0) || (max_alloc <? elem_size * n) then Panic
  else Ok (replicate (Z.to_nat n) zero).

(** [image.NewPaletted]: it panics on dimensions that are negative or whose
    product does not fit [int], then makes a slice of one byte for each
    pixel, all zero. *)
Definition NewPaletted (r : Rectangle) (p : list RGBA) : result Paletted :=
  let w := Dx r in
  let h := Dy r in
  if (w <? 0) || (h <? 0) || (Int.max_int <? w * h) then Panic
  else
    pix ← make 1 0 (w * h);
    Ok (mkPaletted pix w r p).

Definition PixOffset (p : Paletted) (x y : Z) : Z :=
  Int.add (Int.mul (Int.sub y (MinY (Rect p))) (Stride p))
          (Int.mul (Int.sub x (MinX (Rect p))) 1).

(** [Paletted.Set]: nothing outside the rectangle of the image. *)
Definition Set_pixel (p : Paletted) (x y : Z) (c : RGBA) : result Paletted :=
  if negb (In_rect x y (Rect p)) then Ok p
  else
    let i := PixOffset p x y in
    if (i <? 0) || (len (Pix p) <=? i) then Panic
    else Ok (mkPaletted (<[Z.to_nat i := Index (Palette p) c mod 256]> (Pix p))
                        (Stride p) (Rect p) (Palette p)).

(** [Paletted.At] for an image with a palette that is not empty. *)
Definition At (p : Paletted) (x y : Z) : result RGBA :=
  if negb (In_rect x y (Rect p)) then index (Palette p) 0
  else
    i ← index (Pix p) (PixOffset p x y);
    index (Palette p) i.

(** [image/gif.GIF], the fields that the program sets. *)
Record GIF : Type :=
  mkGIF { Image : list Paletted; Delay : list Z; LoopCount : Z }.

(** The first check of [gif.EncodeAll]: an animation without images is
    refused. [rest] stands for the checks and the writing that follow. *)
Definition gif_EncodeAll {File : Type} (rest : File -> GIF -> option string)
    (w : File) (g : GIF) : option string :=
  if len (Image g) =? 0 then Some "gif: must provide at least one image"%string
  else rest w g.

(** ** The configuration flags *)

Record flags : Type := mkFlags {
  outFile : string;
  nframes : Z;
  size : Z;
  delay : Z;
  cycles : float;
  xfreq : float;
  xfreqInc : float;
  yfreq : float;
  yfreqInc : float;
  xphase : float;
  xphaseInc : float;
  yphase : float;
  yphaseInc : float;
  res : float
}.

(** ** [min] *)

Definition min (a b : Z) : Z := if a <? b then a else b.

(** ** [paint] *)

(** The pixel array [[][]int]. *)
Abbreviation canvas := (list (list Z)) (only parsing).

Section Program.

(** [int(f)] for a float [f] that does not fit [int] (too large, infinite
    or not a number): Go leaves the value to the implementation. *)
Variable int_of_unrepresentable : float -> Z.

(** [math.Sin]. *)
Variable Sin : float -> float.

(** Files, errors, [gif.EncodeAll] and [os.Create]. *)
Variable File : Type.
Variable error : Type.
Variable EncodeAll : File -> GIF -> option error.
Variable os_Create : string -> File * option error.

(** The conversion [int(f)]: the fraction is discarded. *)
Definition int_of_float (f : float) : Z :=
  match F64.trunc f with
  | Some z =>
      if (Int.min_int <=? z) && (z <=? Int.max_int) then z
      else Int.wrap (int_of_unrepresentable f)
  | None => Int.wrap (int_of_unrepresentable f)
  end.

Definition offsets : list float := [(-0.55)%float; 0%float; 0.55%float].

(** The body of the inner loop of [paint], for one pair of offsets; [x] and
    [y] are already scaled. *)
Definition paint_tap (x y : float) (scale : Z) (maxVal : Z)
    (xoffset yoffset : float) (c : canvas) : result canvas :=
  let intx := Int.add scale (int_of_float (x + xoffset)%float) in
  let inty := Int.add scale (int_of_float (y + yoffset)%float) in
  if (len c <=? intx) || (intx <? 0) then Ok c
  else if (len c <=? inty) || (inty <? 0) then Ok c
  else
    row ← index c intx;
    v ← index row inty;
    Ok (<[Z.to_nat intx := <[Z.to_nat inty := min (Int.add v 1) maxVal]> row]> c).

Definition paint (x y : float) (scale : Z) (c : canvas) (maxVal : Z)
    : result canvas :=
  let x := (x * F64.of_int scale)%float in
  let y := (y * F64.of_int scale)%float in
  for_range
    (fun xoffset c =>
       for_range (fun yoffset c => paint_tap x y scale maxVal xoffset yoffset c)
         offsets c)
    offsets c.

(** ** [lissajous] *)

(** What the program prints, and the call of the encoder. *)
Inductive event : Type :=
| Rendered_frame (i n : Z)
| Could_not_open (name : string) (err : error)
| Error_encoding (err : error)
| Encoded (out : File) (anim : GIF).

(** The variables that [lissajous] reads and writes. *)
Record state : Type :=
  mkState { vars : flags; anim : GIF; printed : list event }.

(** The bound of the loop over [t]. *)
Definition limit (g : flags) : float := (cycles g * 2 * F64.Pi)%float.

(** The body of the loop over [t]: the point of the curve at [t] is
    painted. *)
Definition plot (g : flags) (t : float) (lisa : canvas) : result canvas :=
  let x := Sin (t * xfreq g + xphase g)%float in
  let y := Sin (t * yfreq g + yphase g)%float in
  paint x y (Int.sub (size g) 2) lisa 15.

(** The loop [for t := 0.0; t < cycles*2*math.Pi; t += res]. *)
Fixpoint sweep (fuel : nat) (g : flags) (t : float) (lisa : canvas)
    : result canvas :=
  match fuel with
  | O => OutOfFuel
  | S fuel' =>
      if (t <? limit g)%float then
        lisa' ← plot g t lisa;
        sweep fuel' g (t + res g)%float lisa'
      else Ok lisa
  end.

(** The pixel array: [2*size] rows of [2*size] zeros. A slice header takes
    24 bytes and an [int] 8. *)
Definition make_lisa (n : Z) : result canvas :=
  rows ← make (A := list Z) 24 [] n;
  row ← make (A := Z) 8 0 n;
  Ok (fmap (M := list) (fun _ : list Z => row) rows).

(** The loops that copy the pixel array to the image. *)
Definition render (img : Paletted) (lisa : canvas) : result Paletted :=
  for_range
    (fun x img =>
       row ← index lisa x;
       for_range
         (fun y img =>
            v ← index row y;
            c ← index palette v;
            Set_pixel img x y c)
         (seqZ 0 (len row)) img)
    (seqZ 0 (len lisa)) img.

(** The increments for the next frame. *)
Definition advance (g : flags) : flags :=
  mkFlags (outFile g) (nframes g) (size g) (delay g) (cycles g)
    (xfreq g + xfreqInc g)%float (xfreqInc g)
    (yfreq g + yfreqInc g)%float (yfreqInc g)
    (xphase g + xphaseInc g)%float (xphaseInc g)
    (yphase g + yphaseInc g)%float (yphaseInc g)
    (res g).

(** The body of the loop over the frames. *)
Definition frame (fuel : nat) (i : Z) (st : state) : result state :=
  let g := vars st in
  let rect :=
    image_Rect 0 0 (Int.add (Int.mul 2 (size g)) 1)
                   (Int.sub (Int.mul 2 (size g)) 1) in
  img ← NewPaletted rect palette;
  lisa ← make_lisa (Int.mul 2 (size g));
  lisa ← sweep fuel g 0%float lisa;
  img ← render img lisa;
  Ok (mkState (advance g)
        (mkGIF (Image (anim st) ++ [img]) (Delay (anim st) ++ [delay g])
               (LoopCount (anim st)))
        (printed st ++ [Rendered_frame i (nframes g)])).

(** The loop over the frames, from the initial state. *)
Definition frames (fuel : nat) (g : flags) : result state :=
  for_range (frame fuel) (seqZ 0 (nframes g))
    (mkState g (mkGIF [] [] (nframes g)) []).

Definition lissajous (fuel : nat) (out : File) (g : flags)
    : result (state * option error) :=
  st ← frames fuel g;
  Ok (mkState (vars st) (anim st)
        (printed st ++ [Rendered_frame (nframes g) (nframes g);
                        Encoded out (anim st)]),
      EncodeAll out (anim st)).

(** ** [main] *)

Definition main (fuel : nat) (g : flags) : result (list event) :=
  let '(f, err) := os_Create (outFile g) in
  let opened :=
    match err with
    | Some e => [Could_not_open (outFile g) e]
    | None => []
    end in
  r ← lissajous fuel f g;
  Ok (opened ++ printed r.1 ++
      match r.2 with
      | Some e => [Error_encoding e]
      | None => []
      end).

End Program.

Arguments Rendered_frame {File error} i n.
Arguments Could_not_open {File error} name err.
Arguments Error_encoding {File error} err.
Arguments Encoded {File error} out anim.
Arguments mkState {File error} vars anim printed.
Arguments vars {File error} s.
Arguments anim {File error} s.
Arguments printed {File error} s.
Arguments frame int_of_unrepresentable Sin {File error} fuel i st.
Arguments lissajous int_of_unrepresentable Sin {File error} EncodeAll fuel out g.
Arguments main int_of_unrepresentable Sin {File error} EncodeAll os_Create fuel g.

(** * The vocabulary of the properties *)

(** ** Pixel arrays and the cells that [paint] considers *)

(** Every row is as long as the array has rows. *)
Definition square (c : canvas) : Prop :=
  Forall (fun row : list Z => length row = length c) c.

(** Every cell lies between [lo] and [hi]. *)
Definition cells_in (lo hi : Z) (c : canvas) : Prop :=
  Forall (Forall (fun v : Z => lo <= v <= hi)) c.

(** The cell in row [i] and column [j], when there is one. *)
Definition cell (c : canvas) (i j : nat) : option Z :=
  match c !! i with
  | Some row => row !! j
  | None => None
  end.

(** No cell of [c'] is below the cell of [c] at the same place, and the two
    arrays have the same cells. *)
Definition no_cell_lower (c c' : canvas) : Prop :=
  forall i j,
    match cell c i j, cell c' i j with
    | Some v, Some v' => v <= v'
    | None, None => True
    | _, _ => False
    end.

(** The nine cells that a call of [paint] considers, in the order of its
    loops, as pairs [(intx, inty)]. *)
Definition candidates (conv : float -> Z) (x y : float) (scale : Z)
    : list (Z * Z) :=
  let x := (x * F64.of_int scale)%float in
  let y := (y * F64.of_int scale)%float in
  xoffset ← offsets;
  yoffset ← offsets;
  [(Int.add scale (int_of_float conv (x + xoffset)%float),
    Int.add scale (int_of_float conv (y + yoffset)%float))].

(** A cell is on the array when both indices are in [[0, len c)]. *)
Definition on_canvas (c : canvas) (ij : Z * Z) : Prop :=
  (0 <= ij.1 < len c) /\ (0 <= ij.2 < len c).

(** A sequence of calls of [paint], each with its point and scale. *)
Definition paints (conv : float -> Z) (calls : list (float * float * Z))
    (maxVal : Z) (c : canvas) : result canvas :=
  for_range (fun call c => paint conv call.1.1 call.1.2 call.2 c maxVal)
    calls c.

(** The conversion of an unrepresentable float on amd64: the instruction
    yields the smallest [int]. *)
Definition amd64_int_of_unrepresentable (f : float) : Z := Int.min_int.

(** The end of the body of [paint]'s inner loop, once [intx] and [inty] are
    known: the two bounds checks, then the saturating increment. *)
Definition touch (maxVal : Z) (ij : Z * Z) (c : canvas) : result canvas :=
  if (len c <=? ij.1) || (ij.1 <? 0) then Ok c
  else if (len c <=? ij.2) || (ij.2 <? 0) then Ok c
  else
    row ← index c ij.1;
    v ← index row ij.2;
    Ok (<[Z.to_nat ij.1 := <[Z.to_nat ij.2 := min (Int.add v 1) maxVal]> row]> c).

(** What [paint] keeps: the array stays square, its cells stay between 0 and
    the cap, and no cell goes down. *)
Definition saturated (maxVal : Z) (c0 c : canvas) : Prop :=
  square c /\ length c = length c0 /\ cells_in 0 maxVal c /\ no_cell_lower c0 c.

(** An array of [n] rows of [n] zeros. *)
Definition zeros (n : nat) : canvas := replicate n (replicate n 0).

(** The array of 20 rows and columns with 1 in the nine cells of rows and
    columns 7, 8 and 9, and 0 elsewhere. *)
Definition nine_cells : canvas :=
  (fun i : Z =>
     (fun j : Z =>
        if (7 <=? i) && (i <=? 9) && (7 <=? j) && (j <=? 9) then 1 else 0)
     <$> seqZ 0 20)
  <$> seqZ 0 20.

(** ** Images, frames and the states of the loop over the frames *)

(** The byte of the pixel at [(x, y)]. *)
Definition pixel (img : Paletted) (x y : Z) : option Z :=
  Pix img !! Z.to_nat (PixOffset img x y).

(** An image of [w] columns and [h] rows at the origin, with the palette of
    the program. *)
Definition well_formed (w h : Z) (img : Paletted) : Prop :=
  Rect img = mkRectangle 0 0 w h /\ Stride img = w /\
  len (Pix img) = w * h /\ Palette img = palette.

(** The values of [t] at which the loop [for t := 0.0; t < limit; t += res]
    runs its body, from the value [t] on. *)
Fixpoint sample_times (fuel : nat) (limit res t : float) : result (list float) :=
  match fuel with
  | O => OutOfFuel
  | S fuel' =>
      if (t <? limit)%float then
        ts ← sample_times fuel' limit res (t + res)%float;
        Ok (t :: ts)
      else Ok []
  end.

(** The image that [image.NewPaletted] returns for [w] columns and [h] rows
    at the origin. *)
Definition blank (w h : Z) : Paletted :=
  mkPaletted (replicate (Z.to_nat (w * h)) 0) w (mkRectangle 0 0 w h) palette.

(** The image [img] shows the pixel array [lisa] of [2*size] rows: it has
    [2*size+1] columns and [2*size-1] rows; the pixel at [(x, y)] has the
    colour [palette[lisa[x][y]]] when [x < 2*size], and the colour
    [palette[0]] in the last column, for which the array has no cell. *)
Definition shows (size : Z) (lisa : canvas) (img : Paletted) : Prop :=
  Rect img = mkRectangle 0 0 (2 * size + 1) (2 * size - 1) /\
  Dx (Rect img) = 2 * size + 1 /\ Dy (Rect img) = 2 * size - 1 /\
  forall x y, In_rect x y (Rect img) = true ->
    exists v,
      (if x <? 2 * size then cell lisa (Z.to_nat x) (Z.to_nat y) = Some v
       else v = 0) /\
      0 <= v <= 15 /\
      At img x y = index palette v.

(** The state in which the loop over the frames leaves frame [i]. *)
Definition next_state {File error : Type} (i : Z) (st : state File error)
    (img : Paletted) : state File error :=
  mkState (advance (vars st))
    (mkGIF (Image (anim st) ++ [img])
           (Delay (anim st) ++ [delay (vars st)])
           (LoopCount (anim st)))
    (printed st ++
     [Rendered_frame i (nframes (vars st))]).

(** What the increments leave as it is. *)
Definition same_config (g g' : flags) : Prop :=
  outFile g' = outFile g /\ nframes g' = nframes g /\ size g' = size g /\
  delay g' = delay g /\ cycles g' = cycles g /\ res g' = res g /\
  xfreqInc g' = xfreqInc g /\ yfreqInc g' = yfreqInc g /\
  xphaseInc g' = xphaseInc g /\ yphaseInc g' = yphaseInc g.

(** The state after [k] frames: the flags have been advanced [k] times;
    there are [k] delays, all the configured one, and [k] images, the one
    of index [j] showing the pixel array swept with the flags advanced [j]
    times; [k] lines have been printed. *)
Definition after_frames (conv : float -> Z) (Sin : float -> float)
    {File error : Type} (fuel : nat) (g : flags) (k : nat)
    (st : state File error) : Prop :=
  vars st = Nat.iter k advance g /\
  Delay (anim st) = replicate k (delay g) /\
  LoopCount (anim st) = nframes g /\
  length (Image (anim st)) = k /\
  (forall j img, Image (anim st) !! j = Some img ->
     exists lisa,
       sweep conv Sin fuel (Nat.iter j advance g) 0%float
         (zeros (Z.to_nat (2 * size g))) = Ok lisa /\
       shows (size g) lisa img) /\
  printed st =
  (fun i => Rendered_frame i (nframes g)) <$> seqZ 0 (Z.of_nat k).

(** ** Inputs of the examples *)

(** A configuration for examples: two frames of half-width 3, a sweep of
    half a cycle in steps of 1, which takes the samples 0, 1, 2 and 3. *)
Definition small_flags : flags :=
  mkFlags "out.gif" 2 3 8 0.5%float 5%float 0%float 4%float 0%float
          0%float 0%float 0%float 0.01%float 1%float.

(** A stand-in for [math.Sin] in examples: the first terms of its series. *)
Definition series_sin (x : float) : float :=
  (x - x * x * x / 6 + x * x * x * x * x / 120)%float.

(** An encoder that accepts every animation, for examples. *)
Definition accept_all (out : unit) (anim : GIF) : option string := None.

(** C4, as the claim states it: every pixel of the image has the colour that
    the palette gives to the cell of the pixel array at the same place. *)
Definition shows_every_pixel (lisa : canvas) (img : Paletted) : Prop :=
  forall x y, In_rect x y (Rect img) = true ->
    exists v,
      cell lisa (Z.to_nat x) (Z.to_nat y) = Some v /\
      At img x y = index palette v.

(** C6, as the claim states it: the call returns, and the error is nil. *)
Definition returns_without_error {File error : Type}
    (r : result (state File error * option error)) : Prop :=
  exists st, r = Ok (st, None).

(** The flags of the examples with no frame. *)
Definition no_frames_flags : flags :=
  mkFlags "out.gif" 0 3 8 0.5%float 5%float 0%float 4%float 0%float
          0%float 0%float 0%float 0.01%float 1%float.

(** An [os.Create] that fails. *)
Definition create_fails (name : string) : unit * option string :=
  (tt, Some "permission denied"%string).

(** An encoder that fails on the file that was not opened. *)
Definition encode_fails (out : unit) (anim : GIF) : option string :=
  Some "invalid argument"%string.

(** ** The values of [t], and floats that hold integers *)

(** The value of [t] after [k] increments: [0 + res + ... + res], each sum
    rounded. *)
Definition accumulate (res : float) (k : nat) : float :=
  Nat.iter k (fun t => (t + res)%float) 0%float.

Arguments accumulate res k : simpl never.

(** A rank of the floats that grows with them: the exponent, then the
    mantissa. *)
Definition SFrank (x : spec_float) : Z :=
  match x with
  | S754_zero _ => 0
  | S754_nan => 0
  | S754_infinity s => if s then - 2 ^ 64 else 2 ^ 64
  | S754_finite s m e =>
      let r := (e + 1075) * 2 ^ 53 + Zpos m in if s then - r else r
  end.

Definition rank (f : float) : Z := SFrank (Prim2SF f).

(** The float of the integer [n], for [1 <= n <= 2^53]. *)
Definition SFint (n : Z) : spec_float :=
  S754_finite false (Z.to_pos (Z.shiftl n (52 - Z.log2 n))) (Z.log2 n - 52).

Definition Fint (n : Z) : float := SF2Prim (SFint n).

(** The values that [t] takes when [res] is 1: the integers, up to [2^53],
    where [t + 1] rounds to [t]. *)
Definition count_up (n : Z) : float := if n =? 0 then 0%float else Fint n.

(** The value of a finite float in units of [2^-1074], the least positive
    float. *)
Definition SFscaled (x : spec_float) : option Z :=
  match x with
  | S754_zero _ => Some 0
  | S754_finite s m e => Some ((if s then Zneg m else Zpos m) * 2 ^ (e + 1074))
  | S754_infinity _ | S754_nan => None
  end.

Definition unit_denominator : positive := Z.to_pos (2 ^ 1074).

(** The float [t] is exactly [j] times the float [res]. *)
Definition exact_multiple (t res : float) (j : nat) : Prop :=
  match F64.toQ t, F64.toQ res with
  | Some q, Some r => Qeq q (inject_Z (Z.of_nat j) * r)
  | _, _ => False
  end.

(** [ceil(a / b)] for two finite floats, exactly. *)
Definition ceil_quotient (a b : float) : option Z :=
  match F64.toQ a, F64.toQ b with
  | Some x, Some y => Some (Qceiling (x / y))
  | _, _ => None
  end.

(** [ceil(cycles * 2 * pi / res)], exactly, for a rational [pi]. *)
Definition sample_count_formula (pi : Q) (cycles res : float) : option Z :=
  match F64.toQ cycles, F64.toQ res with
  | Some c, Some r => Some (Qceiling (c * inject_Z 2 * pi / r))
  | _, _ => None
  end.

(** Half a cycle in steps of 1.0471975511965976, the float nearest to a
    third of [math.Pi]. *)
Definition third_of_pi_flags : flags :=
  mkFlags "out.gif" 1 100 8 0.5%float 5%float 0%float 4%float 0%float
          0%float 0%float 0%float 0.01%float 0x1.0c152382d7365p+0%float.

(** A sweep of [1e16] cycles in steps of 1. *)
Definition stalled_flags : flags :=
  mkFlags "out.gif" 1 100 8 1e16%float 5%float 0%float 4%float 0%float
          0%float 0%float 0%float 0.01%float 1%float.




(** ** Grids of any shape, and the count of the candidate cells *)

(** The lengths of the rows. *)
Definition shape (c : canvas) : list nat := length <$> c.

(** The cell [ij] passes the two bounds checks of [paint], which compare
    both indices with the number of rows, and lies beyond the end of its
    row. *)
Definition beyond_row (c : canvas) (ij : Z * Z) : Prop :=
  on_canvas c ij /\
  exists row, c !! Z.to_nat ij.1 = Some row /\ len row <= ij.2.

(** The number of the cells of [l] that are the cell [(i, j)]. *)
Definition hits (l : list (Z * Z)) (i j : Z) : Z :=
  Z.of_nat (length (filter (fun ij => ij = (i, j)) l)).

(** The cell [v] after [k] increments capped at [maxVal]. *)
Definition raised (maxVal k v : Z) : Z :=
  if k =? 0 then v else Z.min (v + k) maxVal.

(** The candidate cells of a sequence of calls of [paint]. *)
Definition taps (conv : float -> Z) (calls : list (float * float * Z))
    : list (Z * Z) :=
  call ← calls; candidates conv call.1.1 call.1.2 call.2.

(** A square grid whose cells can be incremented without overflow. *)
Definition countable (c : canvas) : Prop :=
  square c /\ cells_in Int.min_int (Int.max_int - 1) c.

(** The calls of [paint] of a sweep that takes the samples [ts]. *)
Definition curve (Sin : float -> float) (g : flags) (ts : list float)
    : list (float * float * Z) :=
  (fun t => (Sin (t * xfreq g + xphase g)%float,
             Sin (t * yfreq g + yphase g)%float,
             Int.sub (size g) 2)) <$> ts.

(** ** The signs of floats *)

(** A float with the sign [s], or a zero. *)
Definition SFsigned (s : bool) (x : spec_float) : Prop :=
  match x with
  | S754_zero _ => True
  | S754_finite s' _ _ => s' = s
  | S754_infinity s' => s' = s
  | S754_nan => False
  end.

(** A float that is not above zero: a zero, a negative float or minus
    infinity. *)
Definition SFnonpositive (x : spec_float) : Prop :=
  match x with
  | S754_zero _ => True
  | S754_finite s _ _ => s = true
  | S754_infinity s => s = true
  | S754_nan => False
  end.

(** A float that is not above zero, or that is not a number. *)
Definition SFnot_positive (x : spec_float) : Prop :=
  match x with
  | S754_nan => True
  | _ => SFnonpositive x
  end.

(** ** The image of a frame *)

(** The image that the body of the loop over the frames appends, from the
    flags of the frame. *)
Definition picture (conv : float -> Z) (Sin : float -> float) (fuel : nat)
    (g : flags) : result Paletted :=
  img ← NewPaletted
          (image_Rect 0 0 (Int.add (Int.mul 2 (size g)) 1)
                          (Int.sub (Int.mul 2 (size g)) 1)) palette;
  lisa ← make_lisa (Int.mul 2 (size g));
  lisa ← sweep conv Sin fuel g 0%float lisa;
  render img lisa.

(** The four increments are 0 and no parameter is the negative zero, which
    an increment of 0 turns into the positive one. *)
Definition steady (g : flags) : Prop :=
  xfreqInc g = 0%float /\ yfreqInc g = 0%float /\
  xphaseInc g = 0%float /\ yphaseInc g = 0%float /\
  Prim2SF (xfreq g) <> S754_zero true /\
  Prim2SF (yfreq g) <> S754_zero true /\
  Prim2SF (xphase g) <> S754_zero true /\
  Prim2SF (yphase g) <> S754_zero true.

(** The image of one pixel that [image.NewPaletted] returns for
    [image.Rect(0, 0, 1, -1)], whose corners [image.Rect] swaps. *)
Definition single_pixel : Paletted :=
  mkPaletted [0] 1 (mkRectangle 0 (-1) 1 0) palette.

(** ** More inputs of examples *)

(** Half a cycle with a step of 4, above the bound of about 3.14. *)
Definition wide_step_flags : flags :=
  mkFlags "out.gif" 2 3 8 0.5%float 5%float 0%float 4%float 0%float
          0%float 0%float 0%float 0.01%float 4%float.

(** Two cycles with a step of 0. *)
Definition zero_step_flags : flags :=
  mkFlags "out.gif" 1 3 8 2%float 5%float 0%float 4%float 0%float
          0%float 0%float 0%float 0.01%float 0%float.

(** A negative number of cycles. *)
Definition no_cycle_flags : flags :=
  mkFlags "out.gif" 2 3 8 (-1)%float 5%float 0%float 4%float 0%float
          0%float 0%float 0%float 0.01%float 1%float.

(** The size -3. *)
Definition negative_size_flags : flags :=
  mkFlags "out.gif" 2 (-3) 8 0.5%float 5%float 0%float 4%float 0%float
          0%float 0%float 0%float 0.01%float 1%float.

(** The size 0. *)
Definition size_zero_flags : flags :=
  mkFlags "out.gif" 2 0 8 0.5%float 5%float 0%float 4%float 0%float
          0%float 0%float 0%float 0.01%float 1%float.

(** Three frames with no increment. *)
Definition still_flags : flags :=
  mkFlags "out.gif" 3 3 8 0.5%float 5%float 0%float 4%float 0%float
          0%float 0%float 0%float 0%float 1%float.

(** * Proofs *)

(** ** Loops *)

Lemma for_range_invariant {A S : Type} (P : S -> Prop)
    (body : A -> S -> result S) (l : list A) :
  (forall a st, P st -> exists st', body a st = Ok st' /\ P st') ->
  forall st, P st -> exists st', for_range body l st = Ok st' /\ P st'.
Proof.
  intros Hbody. induction l as [|a l IH]; intros st Hst; simpl.
  - eauto.
  - destruct (Hbody a st Hst) as (st1 & -> & H1). simpl. auto.
Qed.

Lemma for_range_app {A S : Type} (body : A -> S -> result S) (l1 l2 : list A)
    (st : S) :
  for_range body (l1 ++ l2) st =
  st' ← for_range body l1 st; for_range body l2 st'.
Proof.
  revert st. induction l1 as [|a l1 IH]; intros st; simpl; [done|].
  destruct (body a st); simpl; auto.
Qed.

(** ** Facts on [int] *)

Lemma wrap_in_range (z : Z) : Int.in_range z -> Int.wrap z = z.
Proof.
  unfold Int.in_range, Int.wrap, Int.min_int, Int.max_int. intros H.
  rewrite Z.mod_small; lia.
Qed.

Lemma wrap_range (z : Z) : Int.in_range (Int.wrap z).
Proof.
  unfold Int.in_range, Int.wrap, Int.min_int, Int.max_int.
  pose proof (Z.mod_pos_bound (z + 2 ^ 63) (2 ^ 64)). lia.
Qed.

(** An [int] expression that does not overflow is the integer expression. *)
Ltac int_in_range :=
  unfold Int.in_range, Int.min_int, Int.max_int in *; lia.

Lemma min_spec (a b : Z) : min a b = Z.min a b.
Proof. unfold min. destruct (Z.ltb_spec a b); lia. Qed.

(** ** Facts on [index] *)

Lemma index_Ok {A : Type} (s : list A) (i : Z) (a : A) :
  index s i = Ok a <-> 0 <= i /\ s !! Z.to_nat i = Some a.
Proof.
  unfold index, len. destruct (Z.ltb_spec i 0); simpl.
  - split; [done | lia].
  - destruct (Z.leb_spec (Z.of_nat (length s)) i); simpl.
    + split; [done|]. intros [_ Hl]. apply lookup_lt_Some in Hl. lia.
    + destruct (s !! Z.to_nat i) eqn:E; split; intros; try done.
      * split; [lia | congruence].
      * destruct H1; congruence.
      * destruct H1; congruence.
Qed.

Lemma index_in_range {A : Type} (s : list A) (i : Z) :
  0 <= i < len s -> exists a, index s i = Ok a /\ s !! Z.to_nat i = Some a.
Proof.
  intros H. unfold len in H.
  destruct (lookup_lt_is_Some_2 s (Z.to_nat i)) as [a Ha]; [lia|].
  exists a. split; [|done]. apply index_Ok. split; [lia|done].
Qed.

(** ** [paint] as a loop over its candidate cells *)

Lemma for_range_bind {A B S : Type} (body : B -> S -> result S)
    (f : A -> list B) (l : list A) (st : S) :
  for_range body (l ≫= f) st =
  for_range (fun a st => for_range body (f a) st) l st.
Proof.
  revert st. induction l as [|a l IH]; intros st; [done|].
  change ((a :: l) ≫= f) with (f a ++ (l ≫= f)).
  rewrite for_range_app. simpl.
  destruct (for_range body (f a) st); simpl; auto.
Qed.

Section Paint_facts.

Variable conv : float -> Z.

Lemma paint_tap_touch (x y : float) (scale maxVal : Z) (xoffset yoffset : float)
    (c : canvas) :
  paint_tap conv x y scale maxVal xoffset yoffset c =
  touch maxVal (Int.add scale (int_of_float conv (x + xoffset)%float),
                Int.add scale (int_of_float conv (y + yoffset)%float)) c.
Proof. reflexivity. Qed.

Lemma paint_candidates (x y : float) (scale : Z) (c : canvas) (maxVal : Z) :
  paint conv x y scale c maxVal =
  for_range (touch maxVal) (candidates conv x y scale) c.
Proof.
  unfold candidates. rewrite for_range_bind. unfold paint.
  f_equal.
Qed.

Lemma touch_outside (maxVal : Z) (ij : Z * Z) (c : canvas) :
  ~ on_canvas c ij -> touch maxVal ij c = Ok c.
Proof.
  unfold on_canvas, touch. intros H.
  destruct (Z.leb_spec (len c) ij.1), (Z.ltb_spec ij.1 0); simpl; try done.
  destruct (Z.leb_spec (len c) ij.2), (Z.ltb_spec ij.2 0); simpl; try done.
  exfalso. apply H. lia.
Qed.

Lemma touch_inside (maxVal : Z) (ij : Z * Z) (c : canvas) :
  square c -> on_canvas c ij ->
  exists row v,
    c !! Z.to_nat ij.1 = Some row /\ row !! Z.to_nat ij.2 = Some v /\
    touch maxVal ij c =
    Ok (<[Z.to_nat ij.1 := <[Z.to_nat ij.2 := min (Int.add v 1) maxVal]> row]> c).
Proof.
  unfold on_canvas, touch. intros Hsq [Hi Hj].
  destruct (Z.leb_spec (len c) ij.1), (Z.ltb_spec ij.1 0); simpl; try lia.
  destruct (Z.leb_spec (len c) ij.2), (Z.ltb_spec ij.2 0); simpl; try lia.
  destruct (index_in_range c ij.1 Hi) as (row & Hrow & Hlr).
  assert (Hlen : length row = length c).
  { unfold square in Hsq. rewrite Forall_lookup in Hsq. eauto. }
  destruct (index_in_range row ij.2) as (v & Hv & Hlv).
  { unfold len in *. lia. }
  exists row, v. rewrite Hrow. simpl. rewrite Hv. simpl. auto.
Qed.

End Paint_facts.

(** ** Invariants of [paint] *)

Lemma on_canvas_dec (c : canvas) (ij : Z * Z) :
  on_canvas c ij \/ ~ on_canvas c ij.
Proof. unfold on_canvas. lia. Qed.

Lemma touch_invariant (P : canvas -> Prop) (maxVal : Z) :
  (forall c, P c -> square c) ->
  (forall c i j row v,
      P c -> c !! i = Some row -> row !! j = Some v ->
      P (<[i := <[j := min (Int.add v 1) maxVal]> row]> c)) ->
  forall ij c, P c -> exists c', touch maxVal ij c = Ok c' /\ P c'.
Proof.
  intros Hsq Hstep ij c Hc.
  destruct (on_canvas_dec c ij) as [Hin | Hout].
  - destruct (touch_inside maxVal ij c (Hsq c Hc) Hin) as (row & v & Hr & Hv & ->).
    eauto.
  - rewrite touch_outside by done. eauto.
Qed.

Lemma paint_invariant (conv : float -> Z) (P : canvas -> Prop) (maxVal : Z) :
  (forall c, P c -> square c) ->
  (forall c i j row v,
      P c -> c !! i = Some row -> row !! j = Some v ->
      P (<[i := <[j := min (Int.add v 1) maxVal]> row]> c)) ->
  forall x y scale c,
    P c -> exists c', paint conv x y scale c maxVal = Ok c' /\ P c'.
Proof.
  intros Hsq Hstep x y scale c Hc. rewrite paint_candidates.
  apply for_range_invariant; [|done].
  intros ij c1 Hc1. by apply touch_invariant.
Qed.

Lemma square_bump (c : canvas) (i j : nat) (row : list Z) (w : Z) :
  square c -> c !! i = Some row -> square (<[i := <[j := w]> row]> c).
Proof.
  unfold square. intros Hsq Hrow. rewrite length_insert.
  apply Forall_insert; [done|].
  rewrite length_insert. rewrite Forall_lookup in Hsq. eauto.
Qed.

Lemma cells_in_bump (lo hi : Z) (c : canvas) (i j : nat) (row : list Z) (w : Z) :
  cells_in lo hi c -> c !! i = Some row -> lo <= w <= hi ->
  cells_in lo hi (<[i := <[j := w]> row]> c).
Proof.
  unfold cells_in. intros Hc Hrow Hw.
  apply Forall_insert; [done|]. apply Forall_insert; [|done].
  rewrite Forall_lookup in Hc. eauto.
Qed.

Lemma cell_bump (c : canvas) (i j : nat) (row : list Z) (v w : Z) (i' j' : nat) :
  c !! i = Some row -> row !! j = Some v ->
  cell (<[i := <[j := w]> row]> c) i' j' =
  if decide (i' = i /\ j' = j) then Some w else cell c i' j'.
Proof.
  intros Hrow Hv. unfold cell.
  pose proof (lookup_lt_Some _ _ _ Hrow) as Hi.
  pose proof (lookup_lt_Some _ _ _ Hv) as Hj.
  destruct (decide (i' = i)) as [-> | Hne].
  - rewrite list_lookup_insert_eq by done.
    destruct (decide (j' = j)) as [-> | Hne].
    + rewrite list_lookup_insert_eq by done. by rewrite decide_True.
    + rewrite list_lookup_insert_ne by done. rewrite Hrow.
      rewrite decide_False by tauto. done.
  - rewrite list_lookup_insert_ne by done. rewrite decide_False by tauto. done.
Qed.

Lemma cell_cells_in (lo hi : Z) (c : canvas) (i j : nat) (v : Z) :
  cells_in lo hi c -> cell c i j = Some v -> lo <= v <= hi.
Proof.
  unfold cells_in, cell. intros Hc Hv.
  destruct (c !! i) as [row|] eqn:Hrow; [|done].
  rewrite Forall_lookup in Hc. specialize (Hc _ _ Hrow).
  rewrite Forall_lookup in Hc. eauto.
Qed.

Lemma no_cell_lower_refl (c : canvas) : no_cell_lower c c.
Proof. intros i j. destruct (cell c i j); lia. Qed.

Lemma no_cell_lower_trans (c1 c2 c3 : canvas) :
  no_cell_lower c1 c2 -> no_cell_lower c2 c3 -> no_cell_lower c1 c3.
Proof.
  intros H12 H23 i j. specialize (H12 i j). specialize (H23 i j).
  destruct (cell c1 i j), (cell c2 i j), (cell c3 i j); try done; lia.
Qed.

(** The saturating increment of a cell between 0 and a cap below the
    largest [int]. *)
Lemma saturating_increment (v maxVal : Z) :
  0 <= v <= maxVal -> maxVal < Int.max_int ->
  v <= min (Int.add v 1) maxVal <= maxVal /\
  min (Int.add v 1) maxVal = Z.min (v + 1) maxVal.
Proof.
  intros Hv Hmax. unfold Int.add.
  rewrite wrap_in_range by int_in_range.
  rewrite min_spec. lia.
Qed.

Lemma saturated_bump (maxVal : Z) (c0 c : canvas) (i j : nat) (row : list Z) (v : Z) :
  maxVal < Int.max_int ->
  saturated maxVal c0 c -> c !! i = Some row -> row !! j = Some v ->
  saturated maxVal c0 (<[i := <[j := min (Int.add v 1) maxVal]> row]> c).
Proof.
  intros Hmax (Hsq & Hlen & Hin & Hlow) Hrow Hv.
  assert (Hv' : 0 <= v <= maxVal).
  { apply (cell_cells_in 0 maxVal c i j); [done|]. unfold cell. by rewrite Hrow. }
  destruct (saturating_increment v maxVal Hv' Hmax) as [Hsat _].
  split; [by apply square_bump|]. split; [by rewrite length_insert|].
  split; [apply cells_in_bump; [done|done|lia]|].
  intros i' j'. rewrite (cell_bump c i j row v) by done.
  specialize (Hlow i' j'). destruct (decide (i' = i /\ j' = j)) as [[-> ->]|]; [|done].
  assert (Hc : cell c i j = Some v) by (unfold cell; by rewrite Hrow).
  rewrite Hc in Hlow. destruct (cell c0 i j); [lia|done].
Qed.

Lemma paint_saturated (conv : float -> Z) (maxVal : Z) (c0 : canvas)
    (x y : float) (scale : Z) (c : canvas) :
  maxVal < Int.max_int -> saturated maxVal c0 c ->
  exists c', paint conv x y scale c maxVal = Ok c' /\ saturated maxVal c0 c'.
Proof.
  intros Hmax Hc.
  apply (paint_invariant conv (saturated maxVal c0) maxVal); [| |done].
  - by intros c1 (H & _).
  - intros c1 i j row v H1 Hr Hv. by apply saturated_bump.
Qed.

Lemma paint_square (conv : float -> Z) (maxVal : Z) (x y : float) (scale : Z)
    (c : canvas) :
  square c -> exists c', paint conv x y scale c maxVal = Ok c' /\ square c'.
Proof.
  intros Hc. apply (paint_invariant conv square maxVal); [done| |done].
  intros c1 i j row v H1 Hr _. by apply square_bump.
Qed.

(** ** Claims on [paint] *)

Lemma square_zeros (n : nat) : square (zeros n).
Proof.
  unfold square, zeros. rewrite length_replicate.
  apply Forall_replicate. by rewrite length_replicate.
Qed.

Lemma cells_in_zeros (n : nat) (hi : Z) : 0 <= hi -> cells_in 0 hi (zeros n).
Proof.
  intros H. unfold cells_in, zeros. apply Forall_replicate, Forall_replicate. lia.
Qed.

(** C2, as the code has it: [paint(0, 0, 8, canvas, 15)] on a fresh array of
    20 rows and columns changes the cell of row 8 and column 8 only. The
    conversion to [int] discards the fraction, so the nine offsets all land
    on that cell, which ends at 9; every other cell stays 0. *)
Theorem paint_origin_one_cell (conv : float -> Z) :
  paint conv 0%float 0%float 8 (zeros 20) 15 =
  Ok (<[8%nat := <[8%nat := 9]> (replicate 20 0)]> (zeros 20)).
Proof. vm_compute. reflexivity. Qed.

(** C2, as the claim states it, fails: the call does not yield the array
    with 1 in each of the nine cells of rows and columns 7 to 9. *)
Lemma paint_origin_not_nine_cells :
  paint amd64_int_of_unrepresentable 0%float 0%float 8 (zeros 20) 15
  <> Ok nine_cells.
Proof. vm_compute. intros H. discriminate H. Qed.

(** C3: on a square array with cells between 0 and the cap, any sequence of
    calls of [paint] returns an array whose cells are still between 0 and
    the cap, none of them lower than before. The cap is any [int] below the
    largest one; the program's cap is 15. *)
Theorem paint_saturation_law (conv : float -> Z) (maxVal : Z)
    (calls : list (float * float * Z)) (c : canvas) :
  maxVal < Int.max_int -> square c -> cells_in 0 maxVal c ->
  exists c',
    paints conv calls maxVal c = Ok c' /\
    cells_in 0 maxVal c' /\ no_cell_lower c c'.
Proof.
  intros Hmax Hsq Hin.
  destruct (for_range_invariant (saturated maxVal c)
              (fun call c => paint conv call.1.1 call.1.2 call.2 c maxVal)
              calls) with (st := c) as (c' & Hc' & _ & _ & Hin' & Hlow).
  - intros call c1 H1. by apply paint_saturated.
  - split; [done|]. split; [done|]. split; [done|]. apply no_cell_lower_refl.
  - exists c'. auto.
Qed.

Lemma paint_saturation_law_witness :
  exists c',
    paints amd64_int_of_unrepresentable
      [(0%float, 0%float, 8); (0.5%float, (-0.25)%float, 8);
       (0%float, 0%float, 8)] 15 (zeros 20) = Ok c' /\
    cells_in 0 15 c' /\ no_cell_lower (zeros 20) c'.
Proof.
  apply paint_saturation_law.
  - reflexivity.
  - apply square_zeros.
  - apply cells_in_zeros. lia.
Defined.

(** C5: a candidate cell outside [[0, len canvas)] in either axis changes
    nothing, whatever the scaled point [(px, py)] and the offsets; so a call
    of [paint] whose nine candidate cells are all outside, as they are for a
    point far outside the array, returns the array as it was. *)
Theorem paint_skips_off_canvas (conv : float -> Z) (x y : float) (scale : Z)
    (maxVal : Z) (c : canvas) :
  (forall px py xoffset yoffset c1,
      ~ on_canvas c1
          (Int.add scale (int_of_float conv (px + xoffset)%float),
           Int.add scale (int_of_float conv (py + yoffset)%float)) ->
      paint_tap conv px py scale maxVal xoffset yoffset c1 = Ok c1) /\
  (Forall (fun ij => ~ on_canvas c ij) (candidates conv x y scale) ->
   paint conv x y scale c maxVal = Ok c).
Proof.
  split.
  - intros px py xoffset yoffset c1 H. rewrite paint_tap_touch.
    by apply touch_outside.
  - intros H. rewrite paint_candidates.
    induction H as [|ij l Hij _ IH]; simpl; [done|].
    rewrite touch_outside by done. simpl. done.
Qed.

Lemma paint_skips_off_canvas_witness :
  Forall (fun ij => ~ on_canvas (zeros 20) ij)
    (candidates amd64_int_of_unrepresentable 100%float 100%float 8) /\
  paint amd64_int_of_unrepresentable 100%float 100%float 8 (zeros 20) 15
  = Ok (zeros 20).
Proof.
  assert (H : Forall (fun ij => ~ on_canvas (zeros 20) ij)
                (candidates amd64_int_of_unrepresentable 100%float 100%float 8)).
  { assert (E : candidates amd64_int_of_unrepresentable 100%float 100%float 8
                = [(807, 807); (807, 808); (807, 808);
                   (808, 807); (808, 808); (808, 808);
                   (808, 807); (808, 808); (808, 808)])
      by (vm_compute; reflexivity).
    rewrite E. unfold on_canvas, len.
    repeat (apply Forall_cons_2; [simpl; lia|]). apply Forall_nil_2. }
  split; [exact H|].
  exact (proj2 (paint_skips_off_canvas amd64_int_of_unrepresentable
                  100%float 100%float 8 15 (zeros 20)) H).
Defined.

(** C10: on a square array [paint] never indexes out of range: it returns
    an array, for every point, scale and cap, and the array is still
    square. *)
Theorem paint_total (conv : float -> Z) (x y : float) (scale maxVal : Z)
    (c : canvas) :
  square c ->
  exists c', paint conv x y scale c maxVal = Ok c' /\ square c'.
Proof. apply paint_square. Qed.

Lemma paint_total_witness :
  exists c',
    paint amd64_int_of_unrepresentable nan infinity (-3) (zeros 4) (-7) = Ok c' /\
    square c'.
Proof. apply paint_total. apply square_zeros. Defined.

(** ** Examples of [paint] *)

Example int_of_float_discards_fraction :
  int_of_float amd64_int_of_unrepresentable (-0.55)%float = 0 /\
  int_of_float amd64_int_of_unrepresentable 0.55%float = 0 /\
  int_of_float amd64_int_of_unrepresentable (-1.55)%float = -1 /\
  int_of_float amd64_int_of_unrepresentable 7.45%float = 7 /\
  int_of_float amd64_int_of_unrepresentable 1e300%float = Int.min_int /\
  int_of_float amd64_int_of_unrepresentable nan = Int.min_int.
Proof. repeat split; vm_compute; reflexivity. Qed.

Example of_int_rounds_to_nearest_even :
  F64.of_int 8 = 8%float /\ F64.of_int (-3) = (-3)%float /\
  F64.of_int (2 ^ 53 + 1) = 0x1p+53%float /\
  F64.of_int (2 ^ 53 + 3) = 0x1.0000000000002p+53%float /\
  F64.of_int Int.min_int = (- 0x1p+63)%float.
Proof. repeat split; vm_compute; reflexivity. Qed.

(** Away from the origin the nine offsets spread over four cells. *)
Example paint_spreads_over_four_cells :
  exists c,
    paint amd64_int_of_unrepresentable 0.1%float 0.1%float 8 (zeros 20) 15
    = Ok c /\
    cell c 8 8 = Some 4 /\ cell c 8 9 = Some 2 /\
    cell c 9 8 = Some 2 /\ cell c 9 9 = Some 1 /\ cell c 7 7 = Some 0.
Proof. eexists. split; [vm_compute; reflexivity|]. repeat split. Qed.

(** Two calls at the origin reach the cap: 9 + 9 is cut to 15. *)
Example paint_twice_saturates :
  exists c,
    paints amd64_int_of_unrepresentable
      [(0%float, 0%float, 8); (0%float, 0%float, 8)] 15 (zeros 20) = Ok c /\
    cell c 8 8 = Some 15.
Proof. eexists. split; [vm_compute; reflexivity|]. reflexivity. Qed.

(** On an array with a short row [paint] indexes out of range. *)
Example paint_panics_on_short_row :
  paint amd64_int_of_unrepresentable 0%float 0.9%float 1
    [[0; 0; 0]; [0]; [0; 0; 0]] 15 = Panic.
Proof. vm_compute. reflexivity. Qed.

(** ** Loops over [0 .. m-1] *)

Lemma seqZ_snoc (m : Z) : 0 <= m -> seqZ 0 (m + 1) = seqZ 0 m ++ [m].
Proof.
  intros H. rewrite (seqZ_app 0 m 1) by lia. by rewrite Z.add_0_l.
Qed.

Lemma for_range_seqZ_total {S : Type} (I : Z -> S -> Prop)
    (body : Z -> S -> result S) (m : Z) (st : S) :
  0 <= m -> I 0 st ->
  (forall j s, 0 <= j < m -> I j s -> exists s', body j s = Ok s' /\ I (j + 1) s') ->
  exists st', for_range body (seqZ 0 m) st = Ok st' /\ I m st'.
Proof.
  intros Hm H0 Hstep.
  assert (H : forall k : nat, Z.of_nat k <= m ->
            exists st', for_range body (seqZ 0 (Z.of_nat k)) st = Ok st' /\
                        I (Z.of_nat k) st').
  { induction k as [|k IH]; intros Hk.
    - exists st. by split.
    - destruct IH as (s1 & E1 & I1); [lia|].
      destruct (Hstep (Z.of_nat k) s1) as (s2 & E2 & I2); [lia|done|].
      exists s2. rewrite Nat2Z.inj_succ, <- Z.add_1_r.
      rewrite seqZ_snoc by lia. rewrite for_range_app, E1. simpl.
      rewrite E2. by split. }
  specialize (H (Z.to_nat m)). rewrite Z2Nat.id in H by done. apply H. lia.
Qed.

Lemma for_range_seqZ_partial {S : Type} (I : Z -> S -> Prop)
    (body : Z -> S -> result S) (m : Z) (st st' : S) :
  0 <= m -> I 0 st ->
  (forall j s s', 0 <= j < m -> I j s -> body j s = Ok s' -> I (j + 1) s') ->
  for_range body (seqZ 0 m) st = Ok st' -> I m st'.
Proof.
  intros Hm H0 Hstep.
  assert (H : forall k : nat, Z.of_nat k <= m -> forall st',
            for_range body (seqZ 0 (Z.of_nat k)) st = Ok st' ->
            I (Z.of_nat k) st').
  { induction k as [|k IH]; intros Hk s E.
    - simpl in E. by injection E as <-.
    - rewrite Nat2Z.inj_succ, <- Z.add_1_r in E |- *.
      rewrite seqZ_snoc in E by lia. rewrite for_range_app in E.
      destruct (for_range body (seqZ 0 (Z.of_nat k)) st) as [s1| |] eqn:E1;
        simpl in E; try done.
      destruct (body (Z.of_nat k) s1) as [s2| |] eqn:E2; simpl in E; try done.
      injection E as <-. apply (Hstep (Z.of_nat k) s1); [lia| |done].
      apply IH; [lia|done]. }
  specialize (H (Z.to_nat m)). rewrite Z2Nat.id in H by done. apply H. lia.
Qed.

(** ** The palette *)

Lemma Index_palette (v : Z) (c : RGBA) :
  index palette v = Ok c -> Index palette c = v /\ 0 <= v <= 15.
Proof.
  intros H. apply index_Ok in H as [H0 H].
  pose proof (lookup_lt_Some _ _ _ H) as Hlt. simpl in Hlt.
  assert (Hv : v = Z.of_nat (Z.to_nat v)) by lia.
  revert H Hv Hlt. generalize (Z.to_nat v) as n. intros n H -> Hlt.
  do 16 (destruct n as [|n];
         [injection H as <-; split; [vm_compute; reflexivity | lia]|]).
  simpl in Hlt. lia.
Qed.

Lemma index_palette_in_range (v : Z) :
  0 <= v <= 15 -> exists c, index palette v = Ok c.
Proof.
  intros H. destruct (index_in_range palette v) as (c & Hc & _).
  - unfold len. simpl. lia.
  - eauto.
Qed.

(** ** Paletted images *)

Section Image_facts.

Variables w h : Z.
Hypothesis Hw : 0 < w.
Hypothesis Hh : 0 <= h.
Hypothesis Hwh : w * h <= Int.max_int.

Lemma PixOffset_well_formed (img : Paletted) (x y : Z) :
  well_formed w h img -> 0 <= x < w -> 0 <= y < h ->
  PixOffset img x y = y * w + x /\ 0 <= y * w + x < w * h.
Proof.
  intros (HR & HS & _ & _) Hx Hy. unfold PixOffset. rewrite HR, HS. simpl.
  assert (Hb : 0 <= y * w + x < w * h) by nia.
  unfold Int.add, Int.mul, Int.sub, Int.max_int in *.
  rewrite !Z.sub_0_r, Z.mul_1_r.
  rewrite !(wrap_in_range y), !(wrap_in_range x), !(wrap_in_range (y * w)),
    !(wrap_in_range (y * w + x));
    unfold Int.in_range, Int.min_int, Int.max_int; nia.
Qed.

Lemma In_rect_well_formed (img : Paletted) (x y : Z) :
  well_formed w h img ->
  In_rect x y (Rect img) = true <-> (0 <= x < w /\ 0 <= y < h).
Proof.
  intros (HR & _). rewrite HR. unfold In_rect. simpl.
  rewrite !andb_true_iff, !Z.leb_le, !Z.ltb_lt. lia.
Qed.

Lemma Set_pixel_inside (img : Paletted) (x y : Z) (c : RGBA) :
  well_formed w h img -> 0 <= x < w -> 0 <= y < h ->
  exists img',
    Set_pixel img x y c = Ok img' /\ well_formed w h img' /\
    Pix img' = <[Z.to_nat (y * w + x) := Index palette c mod 256]> (Pix img).
Proof.
  intros Hwf Hx Hy.
  destruct (PixOffset_well_formed img x y Hwf Hx Hy) as [Hoff Hb].
  pose proof (proj2 (In_rect_well_formed img x y Hwf) (conj Hx Hy)) as Hin.
  destruct Hwf as (HR & HS & HL & HP).
  unfold Set_pixel. rewrite Hin, Hoff, HL, HP. simpl.
  destruct (Z.ltb_spec (y * w + x) 0); [lia|].
  destruct (Z.leb_spec (w * h) (y * w + x)); [lia|]. simpl.
  eexists. split; [done|]. split; [|done].
  unfold well_formed, len in *. simpl. rewrite length_insert. done.
Qed.

Lemma Set_pixel_outside (img : Paletted) (x y : Z) (c : RGBA) :
  well_formed w h img -> ~ (0 <= x < w /\ 0 <= y < h) ->
  Set_pixel img x y c = Ok img.
Proof.
  intros Hwf Hout. unfold Set_pixel.
  destruct (In_rect x y (Rect img)) eqn:E; [|done].
  apply (In_rect_well_formed img x y Hwf) in E. done.
Qed.

Lemma offset_inj (x y x' y' : Z) :
  0 <= x < w -> 0 <= x' < w -> y * w + x = y' * w + x' -> x = x' /\ y = y'.
Proof.
  intros Hx Hx' E.
  assert (E1 : (y * w + x) mod w = x)
    by (rewrite Z.add_comm, Z_mod_plus_full, Z.mod_small; lia).
  assert (E2 : (y' * w + x') mod w = x')
    by (rewrite Z.add_comm, Z_mod_plus_full, Z.mod_small; lia).
  rewrite E in E1. split; [lia|]. nia.
Qed.

Lemma pixel_Set_pixel (img img' : Paletted) (x y x' y' : Z) (b : Z) :
  well_formed w h img -> well_formed w h img' ->
  0 <= x < w -> 0 <= y < h -> 0 <= x' < w -> 0 <= y' < h ->
  Pix img' = <[Z.to_nat (y * w + x) := b]> (Pix img) ->
  pixel img' x' y' =
  if (x' =? x) && (y' =? y) then Some b else pixel img x' y'.
Proof.
  intros Hwf Hwf' Hx Hy Hx' Hy' HP. unfold pixel.
  destruct (PixOffset_well_formed img x' y' Hwf Hx' Hy') as [-> Hb'].
  destruct (PixOffset_well_formed img' x' y' Hwf' Hx' Hy') as [-> _].
  destruct (PixOffset_well_formed img x y Hwf Hx Hy) as [_ Hb].
  rewrite HP. destruct Hwf as (_ & _ & HL & _). unfold len in HL.
  destruct (Z.eqb_spec x' x) as [-> | Hne]; simpl.
  - destruct (Z.eqb_spec y' y) as [-> | Hne].
    + rewrite list_lookup_insert_eq by lia. done.
    + rewrite list_lookup_insert_ne; [done|].
      intros E. apply Z2Nat.inj in E; [|lia|lia].
      apply offset_inj in E; lia.
  - rewrite list_lookup_insert_ne; [done|].
    intros E. apply Z2Nat.inj in E; [|lia|lia].
    apply offset_inj in E; lia.
Qed.

End Image_facts.

(** ** The loops that copy the pixel array to the image *)

Section Render_facts.

Variable n : Z.
Variable lisa : canvas.
Hypothesis Hn : 2 <= n <= 2 ^ 31.
Hypothesis Hsq : square lisa.
Hypothesis Hlen : len lisa = n.
Hypothesis Hin : cells_in 0 15 lisa.

Lemma render_bounds : 0 < n + 1 /\ 0 <= n - 1 /\ (n + 1) * (n - 1) <= Int.max_int.
Proof. unfold Int.max_int. nia. Qed.

Lemma render_column (x : Z) (row : list Z) (img0 : Paletted) :
  well_formed (n + 1) (n - 1) img0 ->
  0 <= x < n -> lisa !! Z.to_nat x = Some row ->
  exists img',
    for_range
      (fun y img =>
         v ← index row y;
         c ← index palette v;
         Set_pixel img x y c)
      (seqZ 0 (len row)) img0 = Ok img' /\
    well_formed (n + 1) (n - 1) img' /\
    forall x' y', 0 <= x' < n + 1 -> 0 <= y' < n - 1 ->
      pixel img' x' y' =
      if x' =? x then row !! Z.to_nat y' else pixel img0 x' y'.
Proof.
  intros Hwf Hx Hrow.
  destruct render_bounds as (Hw & Hh & Hwh).
  assert (Hlr : len row = n).
  { unfold square in Hsq. rewrite Forall_lookup in Hsq.
    unfold len in *. rewrite (Hsq _ _ Hrow). done. }
  assert (Hvals : forall j v, row !! j = Some v -> 0 <= v <= 15).
  { intros j v Hv. unfold cells_in in Hin. rewrite Forall_lookup in Hin.
    specialize (Hin _ _ Hrow). rewrite Forall_lookup in Hin. eauto. }
  destruct (for_range_seqZ_total
    (fun j img =>
       well_formed (n + 1) (n - 1) img /\
       forall x' y', 0 <= x' < n + 1 -> 0 <= y' < n - 1 ->
         pixel img x' y' =
         if (x' =? x) && (y' <? j) then row !! Z.to_nat y' else pixel img0 x' y')
    (fun y img => v ← index row y; c ← index palette v; Set_pixel img x y c)
    (len row) img0) as (img' & E & Hwf' & Hpix).
  - lia.
  - split; [done|]. intros x' y' Hx' Hy'.
    destruct (Z.ltb_spec y' 0); [lia|]. by rewrite andb_false_r.
  - intros j img Hj [Hwfi Hi].
    destruct (index_in_range row j) as (v & Ev & Hv); [lia|].
    pose proof (Hvals _ _ Hv) as Hv15.
    destruct (index_palette_in_range v Hv15) as (c & Ec).
    destruct (Index_palette v c Ec) as [EI _].
    rewrite Ev. simpl. rewrite Ec. simpl.
    destruct (Z.lt_ge_cases j (n - 1)) as [Hjh | Hjh].
    + destruct (Set_pixel_inside (n + 1) (n - 1) Hw Hh Hwh img x j c)
        as (img1 & E1 & Hwf1 & HP1); [done|lia|lia|].
      exists img1. split; [done|]. split; [done|].
      intros x' y' Hx' Hy'.
      rewrite (pixel_Set_pixel (n + 1) (n - 1) Hw Hh Hwh img img1 x j x' y'
                 (Index palette c mod 256)); [|done|done|lia|lia|done|done|done].
      rewrite Hi by done. rewrite EI, Z.mod_small by lia.
      destruct (Z.eqb_spec x' x) as [-> |]; simpl; [|done].
      destruct (Z.eqb_spec y' j) as [-> |].
      * destruct (Z.ltb_spec j (j + 1)); [|lia]. done.
      * destruct (Z.ltb_spec y' j), (Z.ltb_spec y' (j + 1)); try lia; done.
    + rewrite (Set_pixel_outside (n + 1) (n - 1) img x j c) by (done || lia).
      exists img. split; [done|]. split; [done|].
      intros x' y' Hx' Hy'. rewrite Hi by done.
      destruct (Z.ltb_spec y' j), (Z.ltb_spec y' (j + 1)); try lia; done.
  - exists img'. split; [done|]. split; [done|].
    intros x' y' Hx' Hy'. rewrite Hpix by done.
    destruct (Z.ltb_spec y' (len row)); [|lia]. by rewrite andb_true_r.
Qed.

Lemma render_spec (img0 : Paletted) :
  well_formed (n + 1) (n - 1) img0 ->
  exists img',
    render img0 lisa = Ok img' /\
    well_formed (n + 1) (n - 1) img' /\
    forall x y, 0 <= x < n + 1 -> 0 <= y < n - 1 ->
      pixel img' x y =
      if x <? n then cell lisa (Z.to_nat x) (Z.to_nat y) else pixel img0 x y.
Proof.
  intros Hwf. unfold render.
  destruct (for_range_seqZ_total
    (fun i img =>
       well_formed (n + 1) (n - 1) img /\
       forall x y, 0 <= x < n + 1 -> 0 <= y < n - 1 ->
         pixel img x y =
         if x <? i then cell lisa (Z.to_nat x) (Z.to_nat y) else pixel img0 x y)
    (fun x img =>
       row ← index lisa x;
       for_range
         (fun y img => v ← index row y; c ← index palette v; Set_pixel img x y c)
         (seqZ 0 (len row)) img)
    (len lisa) img0) as (img' & E & Hwf' & Hpix).
  - lia.
  - split; [done|]. intros x y Hx Hy. destruct (Z.ltb_spec x 0); [lia|done].
  - intros i img Hi [Hwfi HI].
    destruct (index_in_range lisa i) as (row & Er & Hrow); [lia|].
    rewrite Er. simpl.
    destruct (render_column i row img Hwfi) as (img1 & E1 & Hwf1 & H1);
      [lia|done|].
    exists img1. split; [done|]. split; [done|].
    intros x y Hx Hy. rewrite H1, HI by done.
    destruct (Z.eqb_spec x i) as [-> |].
    + destruct (Z.ltb_spec i (i + 1)); [|lia]. unfold cell. by rewrite Hrow.
    + destruct (Z.ltb_spec x i), (Z.ltb_spec x (i + 1)); try lia; done.
  - exists img'. rewrite Hlen in *. auto.
Qed.

End Render_facts.

(** ** The loop over [t] *)

Section Sweep_facts.

Variable conv : float -> Z.
Variable Sin : float -> float.

Lemma plot_saturated (g : flags) (t : float) (c0 lisa : canvas) :
  saturated 15 c0 lisa ->
  exists lisa', plot conv Sin g t lisa = Ok lisa' /\ saturated 15 c0 lisa'.
Proof. intros H. unfold plot. by apply paint_saturated. Qed.

Lemma sweep_total (fuel : nat) (g : flags) (c0 : canvas) :
  forall t ts lisa,
    sample_times fuel (limit g) (res g) t = Ok ts ->
    saturated 15 c0 lisa ->
    exists lisa', sweep conv Sin fuel g t lisa = Ok lisa' /\ saturated 15 c0 lisa'.
Proof.
  induction fuel as [|fuel IH]; intros t ts lisa Hts Hsat; simpl in *; [done|].
  destruct (t <? limit g)%float; [|eauto].
  destruct (sample_times fuel (limit g) (res g) (t + res g)%float)
    as [ts'| |] eqn:E; simpl in Hts; try done.
  destruct (plot_saturated g t c0 lisa Hsat) as (lisa1 & -> & Hsat1).
  simpl. eauto.
Qed.

Lemma sweep_partial (fuel : nat) (g : flags) (c0 : canvas) :
  forall t lisa lisa',
    sweep conv Sin fuel g t lisa = Ok lisa' ->
    saturated 15 c0 lisa ->
    saturated 15 c0 lisa' /\
    exists ts, sample_times fuel (limit g) (res g) t = Ok ts.
Proof.
  induction fuel as [|fuel IH]; intros t lisa lisa' Hsw Hsat; simpl in *; [done|].
  destruct (t <? limit g)%float.
  - destruct (plot_saturated g t c0 lisa Hsat) as (lisa1 & E1 & Hsat1).
    rewrite E1 in Hsw. simpl in Hsw.
    destruct (IH _ _ _ Hsw Hsat1) as (H & ts & ->). simpl. eauto.
  - injection Hsw as <-. eauto.
Qed.

End Sweep_facts.

(** ** One frame *)

Lemma well_formed_blank (w h : Z) :
  0 <= w * h -> well_formed w h (blank w h).
Proof.
  intros H. unfold well_formed, blank, len. simpl.
  rewrite length_replicate. rewrite Z2Nat.id by done. done.
Qed.

Lemma pixel_blank (w h x y : Z) :
  0 < w -> 0 <= h -> w * h <= Int.max_int -> 0 <= x < w -> 0 <= y < h ->
  pixel (blank w h) x y = Some 0.
Proof.
  intros Hw Hh Hwh Hx Hy. unfold pixel.
  destruct (PixOffset_well_formed w h Hw Hh Hwh (blank w h) x y) as [-> Hb];
    [apply well_formed_blank; nia|done|done|].
  simpl. apply lookup_replicate_2. lia.
Qed.

Lemma render_shows (size : Z) (lisa : canvas) :
  0 < size <= 2 ^ 30 ->
  square lisa -> len lisa = 2 * size -> cells_in 0 15 lisa ->
  exists img,
    render (blank (2 * size + 1) (2 * size - 1)) lisa = Ok img /\
    shows size lisa img.
Proof.
  intros HS Hsq Hlen Hin.
  assert (Hn : 2 <= 2 * size <= 2 ^ 31) by lia.
  destruct (render_bounds (2 * size) Hn) as (Hw & Hh & Hwh).
  destruct (render_spec (2 * size) lisa Hn Hsq Hlen Hin
              (blank (2 * size + 1) (2 * size - 1)))
    as (img & E & Hwf & Hpix).
  { apply well_formed_blank. nia. }
  exists img. split; [done|].
  pose proof Hwf as (HR & HSt & HL & HP).
  split; [done|]. rewrite HR. unfold Dx, Dy, Int.sub. simpl.
  rewrite !Z.sub_0_r.
  rewrite !wrap_in_range by int_in_range.
  split; [done|]. split; [done|].
  intros x y Hxy. rewrite <- HR in Hxy.
  apply (In_rect_well_formed _ _ img x y Hwf) in Hxy as [Hx Hy].
  specialize (Hpix x y Hx Hy).
  destruct (PixOffset_well_formed _ _ Hw Hh Hwh img x y Hwf Hx Hy) as [Hoff Hb].
  assert (HAt : forall v, pixel img x y = Some v -> At img x y = index palette v).
  { intros v Hv. unfold At.
    rewrite (proj2 (In_rect_well_formed _ _ img x y Hwf) (conj Hx Hy)). simpl.
    unfold pixel in Hv.
    assert (Ei : index (Pix img) (PixOffset img x y) = Ok v).
    { apply index_Ok. split; [lia|done]. }
    rewrite Ei. simpl. by rewrite HP. }
  destruct (Z.ltb_spec x (2 * size)) as [Hlt | Hge].
  - destruct (lookup_lt_is_Some_2 lisa (Z.to_nat x)) as [row Hrow].
    { unfold len in Hlen. lia. }
    assert (Hlr : length row = length lisa).
    { unfold square in Hsq. rewrite Forall_lookup in Hsq. eauto. }
    destruct (lookup_lt_is_Some_2 row (Z.to_nat y)) as [v Hv].
    { unfold len in Hlen. lia. }
    assert (Hc : cell lisa (Z.to_nat x) (Z.to_nat y) = Some v).
    { unfold cell. by rewrite Hrow. }
    exists v. split; [done|]. split; [by apply (cell_cells_in 0 15 lisa (Z.to_nat x) (Z.to_nat y) v)|].
    apply HAt. by rewrite Hpix.
  - exists 0. split; [done|]. split; [lia|]. apply HAt. rewrite Hpix.
    apply pixel_blank; done.
Qed.

Lemma saturated_zeros (n : nat) : saturated 15 (zeros n) (zeros n).
Proof.
  split; [apply square_zeros|]. split; [done|].
  split; [apply cells_in_zeros; lia | apply no_cell_lower_refl].
Qed.

Lemma make_Ok {A : Type} (elem_size : Z) (zero : A) (n : Z) :
  0 <= n -> elem_size * n <= max_alloc ->
  make elem_size zero n = Ok (replicate (Z.to_nat n) zero).
Proof.
  intros Hn Hb. unfold make.
  destruct (Z.ltb_spec n 0); [lia|].
  destruct (Z.ltb_spec max_alloc (elem_size * n)); [lia|]. done.
Qed.

Lemma make_lisa_zeros (n : Z) :
  0 <= n <= 2 ^ 43 -> make_lisa n = Ok (zeros (Z.to_nat n)).
Proof.
  intros H. unfold make_lisa.
  rewrite !make_Ok by (unfold max_alloc; lia). simpl.
  by rewrite fmap_replicate.
Qed.

Lemma frame_next (conv : float -> Z) (Sin : float -> float) (File error : Type)
    (fuel : nat) (i : Z) (st st' : state File error) :
  frame conv Sin fuel i st = Ok st' -> exists img, st' = next_state i st img.
Proof.
  unfold frame. intros E.
  destruct (NewPaletted _ _) as [img| |]; simpl in E; try done.
  destruct (make_lisa _) as [lisa| |]; simpl in E; try done.
  destruct (sweep _ _ _ _ _ _) as [lisa'| |]; simpl in E; try done.
  destruct (render _ _) as [img'| |]; simpl in E; try done.
  injection E as <-. by exists img'.
Qed.

Section Frame_facts.

Variable conv : float -> Z.
Variable Sin : float -> float.
Variables File error : Type.

Lemma frame_unfold (fuel : nat) (i : Z) (st : state File error) :
  0 < size (vars st) <= 2 ^ 23 ->
  frame conv Sin fuel i st =
  lisa ← sweep conv Sin fuel (vars st) 0%float
           (zeros (Z.to_nat (2 * size (vars st))));
  img ← render (blank (2 * size (vars st) + 1)
                      (2 * size (vars st) - 1)) lisa;
  Ok (next_state i st img).
Proof.
  intros HS. unfold frame.
  set (S := size (vars st)) in *.
  assert (E2 : Int.mul 2 S = 2 * S).
  { apply wrap_in_range. int_in_range. }
  rewrite E2.
  assert (Ew : Int.add (2 * S) 1 = 2 * S + 1).
  { apply wrap_in_range. int_in_range. }
  assert (Eh : Int.sub (2 * S) 1 = 2 * S - 1).
  { apply wrap_in_range. int_in_range. }
  rewrite Ew, Eh.
  assert (ER : image_Rect 0 0 (2 * S + 1) (2 * S - 1)
               = mkRectangle 0 0 (2 * S + 1) (2 * S - 1)).
  { unfold image_Rect.
    destruct (Z.ltb_spec (2 * S + 1) 0); [lia|].
    destruct (Z.ltb_spec (2 * S - 1) 0); [lia|]. done. }
  rewrite ER.
  assert (EN : NewPaletted (mkRectangle 0 0 (2 * S + 1) (2 * S - 1)) palette
               = Ok (blank (2 * S + 1) (2 * S - 1))).
  { unfold NewPaletted, Dx, Dy, Int.sub. simpl. rewrite !Z.sub_0_r.
    rewrite !wrap_in_range by int_in_range.
    destruct (Z.ltb_spec (2 * S + 1) 0); [lia|].
    destruct (Z.ltb_spec (2 * S - 1) 0); [lia|].
    destruct (Z.ltb_spec Int.max_int ((2 * S + 1) * (2 * S - 1)));
      [unfold Int.max_int in *; nia|].
    simpl. rewrite make_Ok by (unfold max_alloc; nia). done. }
  rewrite EN. simpl. rewrite make_lisa_zeros by lia. simpl. done.
Qed.

(** Above [2^23] the bytes of the image exceed the largest allocation. *)
Lemma frame_panics_on_large_size (fuel : nat) (i : Z) (st : state File error) :
  2 ^ 23 < size (vars st) <= 2 ^ 30 -> frame conv Sin fuel i st = Panic.
Proof.
  intros HS. unfold frame.
  set (S := size (vars st)) in *.
  assert (E2 : Int.mul 2 S = 2 * S).
  { apply wrap_in_range. int_in_range. }
  rewrite E2.
  assert (Ew : Int.add (2 * S) 1 = 2 * S + 1).
  { apply wrap_in_range. int_in_range. }
  assert (Eh : Int.sub (2 * S) 1 = 2 * S - 1).
  { apply wrap_in_range. int_in_range. }
  rewrite Ew, Eh.
  assert (ER : image_Rect 0 0 (2 * S + 1) (2 * S - 1)
               = mkRectangle 0 0 (2 * S + 1) (2 * S - 1)).
  { unfold image_Rect.
    destruct (Z.ltb_spec (2 * S + 1) 0); [lia|].
    destruct (Z.ltb_spec (2 * S - 1) 0); [lia|]. done. }
  rewrite ER.
  assert (EN : NewPaletted (mkRectangle 0 0 (2 * S + 1) (2 * S - 1)) palette
               = Panic).
  { unfold NewPaletted, Dx, Dy, Int.sub. simpl. rewrite !Z.sub_0_r.
    rewrite !wrap_in_range by int_in_range.
    destruct (Z.ltb_spec (2 * S + 1) 0); [lia|].
    destruct (Z.ltb_spec (2 * S - 1) 0); [lia|].
    destruct (Z.ltb_spec Int.max_int ((2 * S + 1) * (2 * S - 1)));
      [done|].
    simpl. unfold make.
    destruct (Z.ltb_spec ((2 * S + 1) * (2 * S - 1)) 0); [done|].
    destruct (Z.ltb_spec max_alloc (1 * ((2 * S + 1) * (2 * S - 1))));
      [done | unfold max_alloc in *; nia]. }
  by rewrite EN.
Qed.

Lemma frame_Ok (fuel : nat) (i : Z) (st st' : state File error) :
  0 < size (vars st) <= 2 ^ 30 ->
  frame conv Sin fuel i st = Ok st' ->
  exists lisa img,
    sweep conv Sin fuel (vars st) 0%float
      (zeros (Z.to_nat (2 * size (vars st)))) = Ok lisa /\
    shows (size (vars st)) lisa img /\
    st' = next_state i st img.
Proof.
  intros HS E.
  destruct (Z.le_gt_cases (size (vars st)) (2 ^ 23)) as [Hle | Hgt];
    [|by rewrite frame_panics_on_large_size in E by lia].
  rewrite frame_unfold in E by lia.
  destruct (sweep _ _ _ _ _ _) as [lisa| |] eqn:Esw; simpl in E; try done.
  destruct (sweep_partial conv Sin fuel _ _ _ _ _ Esw (saturated_zeros _))
    as [(Hsq & Hlen & Hin & _) _].
  destruct (render_shows (size (vars st)) lisa) as (img & Er & Hsh);
    [done|done| |done|].
  { unfold len, zeros in *. rewrite Hlen, length_replicate. lia. }
  rewrite Er in E. simpl in E. injection E as <-. eauto.
Qed.

Lemma frame_total (fuel : nat) (i : Z) (st : state File error) (ts : list float) :
  0 < size (vars st) <= 2 ^ 23 ->
  sample_times fuel (limit (vars st)) (res (vars st)) 0%float
  = Ok ts ->
  exists st', frame conv Sin fuel i st = Ok st'.
Proof.
  intros HS Hts. rewrite frame_unfold by done.
  destruct (sweep_total conv Sin fuel (vars st) _ _ _ _ Hts
              (saturated_zeros (Z.to_nat (2 * size (vars st)))))
    as (lisa & -> & Hsq & Hlen & Hin & _).
  simpl.
  destruct (render_shows (size (vars st)) lisa) as (img & -> & Hsh);
    [lia|done| |done|].
  { unfold len, zeros in *. rewrite Hlen, length_replicate. lia. }
  simpl. eauto.
Qed.

End Frame_facts.

(** ** The loop over the frames *)

Lemma same_config_iter (k : nat) (g : flags) :
  same_config g (Nat.iter k advance g).
Proof.
  induction k as [|k IH]; [by repeat split|].
  simpl. destruct IH as (H1 & H2 & H3 & H4 & H5 & H6 & H7 & H8 & H9 & H10).
  by repeat split.
Qed.

Lemma limit_iter (k : nat) (g : flags) :
  limit (Nat.iter k advance g) = limit g.
Proof.
  destruct (same_config_iter k g) as (_ & _ & _ & _ & H & _).
  unfold limit. by rewrite H.
Qed.

Section Frames_facts.

Variable conv : float -> Z.
Variable Sin : float -> float.
Variables File error : Type.
Variable fuel : nat.
Variable g : flags.

Lemma after_frames_init :
  after_frames conv Sin fuel g 0
    (mkState (File := File) (error := error) g (mkGIF [] [] (nframes g)) []).
Proof. repeat split; done. Qed.

Lemma after_frames_step (k : nat) (st st' : state File error) :
  0 < size g <= 2 ^ 30 ->
  after_frames conv Sin fuel g k st ->
  frame conv Sin fuel (Z.of_nat k) st = Ok st' ->
  after_frames conv Sin fuel g (S k) st'.
Proof.
  intros HS (Hv & Hd & Hl & Hlen & Himg & Hpr) E.
  destruct (same_config_iter k g) as (_ & Hnf & Hsz & Hdl & _).
  rewrite <- Hv in Hnf, Hsz, Hdl.
  apply frame_Ok in E as (lisa & img & Esw & Hsh & ->); [|by rewrite Hsz].
  rewrite Hsz in Esw, Hsh. rewrite Hv in Esw.
  unfold next_state, after_frames. simpl.
  split; [by rewrite Hv|].
  split; [by rewrite Hd, Hdl, <- replicate_S_end|].
  split; [done|].
  split; [rewrite length_app, Hlen; simpl; lia|].
  split.
  - intros j img' Hj. apply lookup_app_Some in Hj as [Hj | [Hge Hj]]; [eauto|].
    rewrite Hlen in Hge, Hj.
    destruct (j - k)%nat as [|d] eqn:Ed; [|done].
    injection Hj as <-. replace j with k by lia. eauto.
  - rewrite Hpr, Hnf, Nat2Z.inj_succ, <- Z.add_1_r, seqZ_snoc by lia.
    by rewrite fmap_app.
Qed.

Lemma frames_partial (st : state File error) :
  0 < size g <= 2 ^ 30 ->
  frames conv Sin File error fuel g = Ok st ->
  after_frames conv Sin fuel g (Z.to_nat (nframes g)) st.
Proof.
  intros HS. unfold frames.
  destruct (Z.lt_ge_cases (nframes g) 0) as [Hneg | Hpos].
  - replace (seqZ 0 (nframes g)) with (@nil Z)
      by (unfold seqZ; replace (Z.to_nat (nframes g)) with 0%nat by lia; done).
    simpl. intros [= <-]. replace (Z.to_nat (nframes g)) with 0%nat by lia.
    apply after_frames_init.
  - apply (for_range_seqZ_partial (fun j st => after_frames conv Sin fuel g (Z.to_nat j) st));
      [done|apply after_frames_init|].
    intros j s s' Hj Hs E.
    replace (Z.to_nat (j + 1)) with (S (Z.to_nat j)) by lia.
    apply (after_frames_step _ s); [done|done|].
    rewrite Z2Nat.id by lia. done.
Qed.

Lemma frames_total (ts : list float) :
  0 < size g <= 2 ^ 23 ->
  sample_times fuel (limit g) (res g) 0%float = Ok ts ->
  exists st,
    frames conv Sin File error fuel g = Ok st /\
    after_frames conv Sin fuel g (Z.to_nat (nframes g)) st.
Proof.
  intros HS Hts. unfold frames.
  destruct (Z.lt_ge_cases (nframes g) 0) as [Hneg | Hpos].
  - replace (seqZ 0 (nframes g)) with (@nil Z)
      by (unfold seqZ; replace (Z.to_nat (nframes g)) with 0%nat by lia; done).
    simpl. eexists. split; [done|].
    replace (Z.to_nat (nframes g)) with 0%nat by lia. apply after_frames_init.
  - apply (for_range_seqZ_total (fun j st => after_frames conv Sin fuel g (Z.to_nat j) st));
      [done|apply after_frames_init|].
    intros j s Hj Hs.
    destruct (same_config_iter (Z.to_nat j) g) as (_ & _ & Hsz & _ & _ & Hres & _).
    pose proof (limit_iter (Z.to_nat j) g) as Hlim.
    pose proof Hs as (Hv & _). rewrite <- Hv in Hsz, Hres, Hlim.
    destruct (frame_total conv Sin File error fuel j s ts) as (s' & E).
    { by rewrite Hsz. }
    { by rewrite Hlim, Hres. }
    exists s'. split; [done|].
    replace (Z.to_nat (j + 1)) with (S (Z.to_nat j)) by lia.
    apply (after_frames_step _ s); [lia|done|].
    rewrite Z2Nat.id by lia. done.
Qed.

End Frames_facts.

(** ** Claims on the frames *)

(** C4, as the code has it: every image that the loop over the frames
    produces has [2*size+1] columns and [2*size-1] rows, and shows the pixel
    array of its frame: [palette[lisa[x][y]]] at each pixel [(x, y)] with
    [x < 2*size], and [palette[0]] in the last column [x = 2*size], where
    the array has no cell. *)
Theorem frames_show_pixel_arrays (conv : float -> Z) (Sin : float -> float)
    (File error : Type) (fuel : nat) (g : flags) (st : state File error) :
  0 < size g <= 2 ^ 30 ->
  frames conv Sin File error fuel g = Ok st ->
  forall j img, Image (anim st) !! j = Some img ->
    exists lisa,
      sweep conv Sin fuel (Nat.iter j advance g) 0%float
        (zeros (Z.to_nat (2 * size g))) = Ok lisa /\
      shows (size g) lisa img.
Proof.
  intros HS E.
  destruct (frames_partial conv Sin File error fuel g st HS E)
    as (_ & _ & _ & _ & H & _).
  exact H.
Qed.

Lemma frames_show_pixel_arrays_witness :
  exists st : state unit string,
    frames amd64_int_of_unrepresentable series_sin unit string 10 small_flags
    = Ok st /\
    forall j img, Image (anim st) !! j = Some img ->
      exists lisa,
        sweep amd64_int_of_unrepresentable series_sin 10
          (Nat.iter j advance small_flags) 0%float (zeros 6) = Ok lisa /\
        shows 3 lisa img.
Proof.
  eexists. split; [vm_compute; reflexivity|].
  apply (frames_show_pixel_arrays amd64_int_of_unrepresentable series_sin
           unit string 10 small_flags).
  - simpl. lia.
  - vm_compute. reflexivity.
Defined.

(** C4, as the claim states it, fails: the image of the first frame of
    [small_flags] has the pixel [(6, 0)], and the pixel array, of 6 rows,
    has no cell there. *)
Lemma frame_pixel_without_cell :
  exists (st : state unit string) img lisa,
    frames amd64_int_of_unrepresentable series_sin unit string 10 small_flags
    = Ok st /\
    Image (anim st) !! 0%nat = Some img /\
    sweep amd64_int_of_unrepresentable series_sin 10 small_flags 0%float
      (zeros 6) = Ok lisa /\
    ~ shows_every_pixel lisa img.
Proof.
  eexists. eexists. eexists.
  split; [vm_compute; reflexivity|].
  split; [reflexivity|].
  split; [vm_compute; reflexivity|].
  intros H. destruct (H 6 0) as (v & Hv & _); [reflexivity|].
  vm_compute in Hv. discriminate Hv.
Qed.

(** Whenever the loop over the frames returns, whatever the flags, it has
    made as many images and delays as [nframes] says (none when [nframes] is
    negative), each delay the configured one. *)
Lemma frames_count_when_returned (conv : float -> Z) (Sin : float -> float)
    (File error : Type) (fuel : nat) (g : flags) (st : state File error) :
  frames conv Sin File error fuel g = Ok st ->
  len (Image (anim st)) = Z.max 0 (nframes g) /\
  Delay (anim st) = replicate (Z.to_nat (nframes g)) (delay g) /\
  LoopCount (anim st) = nframes g.
Proof.
  unfold frames. intros E.
  assert (H : vars st = Nat.iter (Z.to_nat (nframes g)) advance g /\
              length (Image (anim st)) = Z.to_nat (nframes g) /\
              Delay (anim st) = replicate (Z.to_nat (nframes g)) (delay g) /\
              LoopCount (anim st) = nframes g).
  { destruct (Z.lt_ge_cases (nframes g) 0) as [Hneg | Hpos].
    - replace (seqZ 0 (nframes g)) with (@nil Z) in E
        by (unfold seqZ; replace (Z.to_nat (nframes g)) with 0%nat by lia; done).
      simpl in E. injection E as <-.
      replace (Z.to_nat (nframes g)) with 0%nat by lia. done.
    - apply (for_range_seqZ_partial
               (fun j s => vars s = Nat.iter (Z.to_nat j) advance g /\
                           length (Image (anim s)) = Z.to_nat j /\
                           Delay (anim s) = replicate (Z.to_nat j) (delay g) /\
                           LoopCount (anim s) = nframes g)
               (frame conv Sin fuel) (nframes g)
               (mkState g (mkGIF [] [] (nframes g)) []) st Hpos);
        [done| |done].
      intros j s s' Hj (Hv & Hl & Hd & Hc) Es.
      destruct (same_config_iter (Z.to_nat j) g) as (_ & _ & _ & Hdl & _).
      rewrite <- Hv in Hdl.
      apply frame_next in Es as (img & ->).
      replace (Z.to_nat (j + 1)) with (S (Z.to_nat j)) by lia.
      unfold next_state. simpl.
      split; [by rewrite Hv|]. split; [rewrite length_app, Hl; simpl; lia|].
      split; [by rewrite Hd, Hdl, <- replicate_S_end|done]. }
  destruct H as (_ & Hl & Hd & Hc). unfold len. split; [lia|done].
Qed.

(** C6, as the claim states it, fails: with [nframes = 0] the animation is
    empty and [gif.EncodeAll] refuses it, so [lissajous] returns an error. *)
Lemma no_frames_not_without_error :
  ~ returns_without_error
      (lissajous amd64_int_of_unrepresentable series_sin
         (gif_EncodeAll accept_all) 10 tt no_frames_flags).
Proof. intros [st H]. vm_compute in H. discriminate H. Qed.

(** C6, as the code has it: whenever [lissajous] returns, it has handed to
    the encoder exactly as many images and as many delays as [nframes] says,
    each delay the configured one, and what it returns is what the encoder
    returns. With [nframes <= 0] it does return, the animation is empty, and
    the encoder refuses it: the error is that an animation needs at least
    one image. With [nframes = N > 0] it returns, with [N] images and what
    the rest of the encoder returns, when the half-width is from 1 to [2^23]
    and the sweep of a frame ends within the fuel. *)
Theorem frame_count_law (conv : float -> Z) (Sin : float -> float)
    (File : Type) (rest : File -> GIF -> option string)
    (fuel : nat) (out : File) (g : flags) :
  (forall st err,
      lissajous conv Sin (gif_EncodeAll rest) fuel out g = Ok (st, err) ->
      len (Image (anim st)) = Z.max 0 (nframes g) /\
      len (Delay (anim st)) = Z.max 0 (nframes g) /\
      Forall (fun d => d = delay g) (Delay (anim st)) /\
      LoopCount (anim st) = nframes g /\
      err = gif_EncodeAll rest out (anim st)) /\
  (nframes g <= 0 ->
   exists st,
     lissajous conv Sin (gif_EncodeAll rest) fuel out g =
     Ok (st, Some "gif: must provide at least one image"%string) /\
     Image (anim st) = [] /\ Delay (anim st) = []) /\
  (0 < nframes g -> 0 < size g <= 2 ^ 23 ->
   (exists ts, sample_times fuel (limit g) (res g) 0%float = Ok ts) ->
   exists st,
     lissajous conv Sin (gif_EncodeAll rest) fuel out g =
     Ok (st, rest out (anim st)) /\
     len (Image (anim st)) = nframes g /\
     len (Delay (anim st)) = nframes g).
Proof.
  split; [|split].
  - unfold lissajous. intros st err E.
    destruct (frames conv Sin File string fuel g) as [st0| |] eqn:Ef;
      simpl in E; try done.
    injection E as <- <-. simpl.
    destruct (frames_count_when_returned _ _ _ _ _ _ _ Ef) as (Hl & Hd & Hc).
    split; [done|]. rewrite Hd. unfold len in *. rewrite length_replicate.
    split; [lia|]. split; [by apply Forall_replicate|]. done.
  - intros HN. unfold lissajous, frames.
    rewrite seqZ_nil by lia. simpl. eexists. split; [reflexivity|]. done.
  - intros HN HS (ts & Hts). unfold lissajous.
    destruct (frames_total conv Sin File string fuel g ts HS Hts)
      as (st & E & _).
    rewrite E. simpl.
    destruct (frames_count_when_returned _ _ _ _ _ _ _ E) as (Hl & Hd & Hc).
    exists (mkState (vars st) (anim st)
              (printed st ++ [Rendered_frame (nframes g) (nframes g);
                              Encoded out (anim st)])).
    simpl. split.
    + unfold gif_EncodeAll.
      destruct (Z.eqb_spec (len (Image (anim st))) 0); [lia|done].
    + split; [lia|]. rewrite Hd. unfold len. rewrite length_replicate. lia.
Qed.

Lemma frame_count_law_witness :
  (exists st : state unit string,
     lissajous amd64_int_of_unrepresentable series_sin
       (gif_EncodeAll accept_all) 10 tt small_flags =
     Ok (st, accept_all tt (anim st)) /\
     len (Image (anim st)) = 2 /\
     len (Delay (anim st)) = 2) /\
  (exists st : state unit string,
     lissajous amd64_int_of_unrepresentable series_sin
       (gif_EncodeAll accept_all) 10 tt no_frames_flags =
     Ok (st, Some "gif: must provide at least one image"%string) /\
     Image (anim st) = [] /\ Delay (anim st) = []).
Proof.
  split.
  - destruct (frame_count_law amd64_int_of_unrepresentable series_sin unit
                accept_all 10 tt small_flags) as (_ & _ & Hret).
    apply Hret.
    + reflexivity.
    + simpl. lia.
    + eexists. vm_compute. reflexivity.
  - destruct (frame_count_law amd64_int_of_unrepresentable series_sin unit
                accept_all 10 tt no_frames_flags) as (_ & Hzero & _).
    apply Hzero. simpl. lia.
Defined.

(** ** Claims on [main] *)

(** When [os.Create] fails, [main] prints the error and goes on: it calls
    [lissajous] with the file that [os.Create] returned. *)
Lemma main_after_failed_create (conv : float -> Z) (Sin : float -> float)
    (File error : Type) (EncodeAll : File -> GIF -> option error)
    (os_Create : string -> File * option error) (fuel : nat) (g : flags)
    (f : File) (e : error) :
  os_Create (outFile g) = (f, Some e) ->
  main conv Sin EncodeAll os_Create fuel g =
  r ← lissajous conv Sin EncodeAll fuel f g;
  Ok (Could_not_open (outFile g) e :: printed r.1 ++
      match r.2 with
      | Some e' => [Error_encoding e']
      | None => []
      end).
Proof. intros H. unfold main. rewrite H. reflexivity. Qed.

(** C1 fails on the code: with an output file that cannot be created,
    [main] prints that it could not open the file, and then renders both
    frames of [small_flags] and hands them to the encoder all the same. *)
Theorem main_renders_after_failed_create :
  exists img0 img1,
    main amd64_int_of_unrepresentable series_sin encode_fails create_fails
      10 small_flags =
    Ok [Could_not_open "out.gif" "permission denied"%string;
        Rendered_frame 0 2; Rendered_frame 1 2; Rendered_frame 2 2;
        Encoded tt (mkGIF [img0; img1] [8; 8] 2);
        Error_encoding "invalid argument"%string].
Proof. eexists. eexists. vm_compute. reflexivity. Qed.

(** ** The values of [t] in the loop *)

Lemma sample_times_from (limit res : float) (n : nat) :
  forall k fuel,
    (forall j, (j < n)%nat -> (accumulate res (k + j) <? limit)%float = true) ->
    (accumulate res (k + n) <? limit)%float = false ->
    (n < fuel)%nat ->
    sample_times fuel limit res (accumulate res k) =
    Ok ((fun j => accumulate res (k + j)) <$> seq 0 n).
Proof.
  induction n as [|n IH]; intros k fuel Hlt Hge Hfuel;
    (destruct fuel as [|fuel]; [lia|]); simpl.
  - rewrite Nat.add_0_r in Hge. by rewrite Hge.
  - pose proof (Hlt 0%nat ltac:(lia)) as H0. rewrite Nat.add_0_r in H0 |- *.
    rewrite H0.
    change (accumulate res k + res)%float with (accumulate res (S k)).
    rewrite (IH (S k) fuel).
    + simpl. do 2 f_equal. rewrite <- seq_shift, <- list_fmap_compose.
      apply list_fmap_ext. intros i j _. simpl. f_equal. lia.
    + intros j Hj. replace (S k + j)%nat with (k + S j)%nat by lia.
      apply Hlt. lia.
    + replace (S k + n)%nat with (k + S n)%nat by lia. done.
    + lia.
Qed.

Lemma sample_times_run (limit res : float) (n fuel : nat) :
  (forall j, (j < n)%nat -> (accumulate res j <? limit)%float = true) ->
  (accumulate res n <? limit)%float = false ->
  (n < fuel)%nat ->
  sample_times fuel limit res 0%float = Ok (accumulate res <$> seq 0 n).
Proof.
  intros Hlt Hge Hfuel.
  apply (sample_times_from limit res n 0 fuel); done.
Qed.

Section Sweep_samples.

Variable conv : float -> Z.
Variable Sin : float -> float.

Lemma sweep_samples (fuel : nat) (g : flags) :
  forall t ts lisa,
    sample_times fuel (limit g) (res g) t = Ok ts ->
    sweep conv Sin fuel g t lisa = for_range (plot conv Sin g) ts lisa.
Proof.
  induction fuel as [|fuel IH]; intros t ts lisa Hts; simpl in *; [done|].
  destruct (t <? limit g)%float; [|by injection Hts as <-].
  destruct (sample_times fuel (limit g) (res g) (t + res g)%float)
    as [ts'| |] eqn:E; simpl in Hts; try done.
  injection Hts as <-. simpl.
  destruct (plot conv Sin g t lisa); simpl; auto.
Qed.

Lemma sweep_out_of_fuel (fuel : nat) (g : flags) (c0 : canvas) :
  forall t lisa,
    sample_times fuel (limit g) (res g) t = OutOfFuel ->
    saturated 15 c0 lisa ->
    sweep conv Sin fuel g t lisa = OutOfFuel.
Proof.
  induction fuel as [|fuel IH]; intros t lisa Hts Hsat; simpl in *; [done|].
  destruct (t <? limit g)%float; [|done].
  destruct (plot_saturated conv Sin g t c0 lisa Hsat) as (lisa1 & -> & Hsat1).
  simpl. apply IH; [|done].
  destruct (sample_times fuel (limit g) (res g) (t + res g)%float); done.
Qed.

End Sweep_samples.

(** ** The order of the floats *)

Lemma digits2_pos_size (p : positive) : digits2_pos p = Pos.size p.
Proof. induction p; simpl; congruence. Qed.

Lemma digits2_pos_log2 (p : positive) :
  Zpos (digits2_pos p) = Z.log2 (Zpos p) + 1.
Proof. rewrite digits2_pos_size. destruct p; simpl; lia. Qed.

Lemma valid_binary_normal (s : bool) (m : positive) (e : Z) :
  valid_binary (S754_finite s m e) = true ->
  -1074 <= e <= 971 /\ Zpos m < 2 ^ 53 /\ (-1074 < e -> 2 ^ 52 <= Zpos m).
Proof.
  unfold SpecFloat.valid_binary, bounded, canonical_mantissa, fexp,
    SpecFloat.emin, prec, emax.
  intros H. apply andb_prop in H as [H1 H2].
  apply Z.eqb_eq in H1. apply Z.leb_le in H2.
  rewrite digits2_pos_log2 in H1.
  destruct (Z.log2_spec (Zpos m)) as [Hlo Hhi]; [lia|].
  split; [lia|]. split.
  - apply Z.lt_le_trans with (1 := Hhi). apply Z.pow_le_mono_r; lia.
  - intros He. assert (E : Z.log2 (Zpos m) = 52) by lia.
    rewrite E in Hlo. exact Hlo.
Qed.

Lemma valid_binary_bounds (s : bool) (m : positive) (e : Z) :
  valid_binary (S754_finite s m e) = true ->
  -1074 <= e <= 971 /\ Zpos m < 2 ^ 53.
Proof. intros H. apply valid_binary_normal in H. tauto. Qed.

Lemma SFrank_bound (x : spec_float) :
  valid_binary x = true -> - 2 ^ 64 <= SFrank x <= 2 ^ 64.
Proof.
  destruct x as [s|s| |s m e]; intros H; try destruct s;
    try (apply valid_binary_bounds in H); unfold SFrank; lia.
Qed.

Lemma SFltb_rank (x y : spec_float) :
  valid_binary x = true -> valid_binary y = true ->
  SFltb x y = true -> SFrank x < SFrank y.
Proof.
  intros Hx Hy. unfold SFltb.
  destruct x as [sx|sx| |sx mx ex], y as [sy|sy| |sy my ey];
    unfold SFcompare, SFrank;
    try discriminate;
    try (apply valid_binary_bounds in Hx);
    try (apply valid_binary_bounds in Hy);
    try (destruct sx); try (destruct sy); try discriminate; try lia.
  - change (Pos.compare_cont Eq mx my) with (Pos.compare mx my).
    destruct (Z.compare_spec ex ey); try discriminate; try nia.
    destruct (Pos.compare_spec mx my); simpl; try discriminate. lia.
  - change (Pos.compare_cont Eq mx my) with (Pos.compare mx my).
    destruct (Z.compare_spec ex ey); try discriminate; try nia.
    destruct (Pos.compare_spec mx my); try discriminate. lia.
Qed.

Lemma ltb_rank (a b : float) : (a <? b)%float = true -> rank a < rank b.
Proof. rewrite ltb_spec. apply SFltb_rank; apply Prim2SF_valid. Qed.

Lemma rank_bound (a : float) : - 2 ^ 64 <= rank a <= 2 ^ 64.
Proof. apply SFrank_bound, Prim2SF_valid. Qed.

(** ** The order of the floats and their exact values *)

Lemma scaled_order (m1 m2 : positive) (e1 e2 : Z) :
  valid_binary (S754_finite false m1 e1) = true ->
  valid_binary (S754_finite false m2 e2) = true ->
  e1 < e2 ->
  Zpos m1 * 2 ^ (e1 + 1074) < Zpos m2 * 2 ^ (e2 + 1074).
Proof.
  intros H1 H2 He.
  apply valid_binary_normal in H1 as (He1 & Hm1 & _).
  apply valid_binary_normal in H2 as (He2 & _ & Hm2).
  specialize (Hm2 ltac:(lia)).
  assert (Hp : 2 * 2 ^ (e1 + 1074) <= 2 ^ (e2 + 1074)).
  { rewrite <- Z.pow_succ_r by lia. apply Z.pow_le_mono_r; lia. }
  assert (Hpos : 0 < 2 ^ (e1 + 1074)) by (apply Z.pow_pos_nonneg; lia).
  change (2 ^ 53) with (2 * 2 ^ 52) in Hm1.
  revert Hm1 Hm2 Hp Hpos.
  generalize (2 ^ (e1 + 1074)) as A, (2 ^ (e2 + 1074)) as B, (2 ^ 52) as C.
  intros. nia.
Qed.

Lemma SFltb_scaled (x y : spec_float) (vx vy : Z) :
  valid_binary x = true -> valid_binary y = true ->
  SFscaled x = Some vx -> SFscaled y = Some vy ->
  SFltb x y = (vx <? vy).
Proof.
  intros Hx Hy Ex Ey. unfold SFltb.
  destruct x as [sx|sx| |sx mx ex], y as [sy|sy| |sy my ey];
    simpl in Ex, Ey; try discriminate;
    injection Ex as <-; injection Ey as <-.
  - reflexivity.
  - pose proof (valid_binary_normal _ _ _ Hy) as (He & _).
    assert (0 < 2 ^ (ey + 1074)) by (apply Z.pow_pos_nonneg; lia).
    unfold SFcompare. destruct sy; symmetry;
      [apply Z.ltb_ge | apply Z.ltb_lt]; rewrite <- ?Pos2Z.opp_pos; nia.
  - pose proof (valid_binary_normal _ _ _ Hx) as (He & _).
    assert (0 < 2 ^ (ex + 1074)) by (apply Z.pow_pos_nonneg; lia).
    unfold SFcompare. destruct sx; symmetry;
      [apply Z.ltb_lt | apply Z.ltb_ge]; rewrite <- ?Pos2Z.opp_pos; nia.
  - pose proof (valid_binary_normal _ _ _ Hx) as (Hex & _).
    pose proof (valid_binary_normal _ _ _ Hy) as (Hey & _).
    assert (Hpx : 0 < 2 ^ (ex + 1074)) by (apply Z.pow_pos_nonneg; lia).
    assert (Hpy : 0 < 2 ^ (ey + 1074)) by (apply Z.pow_pos_nonneg; lia).
    unfold SFcompare.
    change (Pos.compare_cont Eq mx my) with (Pos.compare mx my).
    destruct sx, sy.
    + (* both negative *)
      assert (Hx' : valid_binary (S754_finite false mx ex) = true) by exact Hx.
      assert (Hy' : valid_binary (S754_finite false my ey) = true) by exact Hy.
      destruct (Z.compare_spec ex ey) as [-> | Hlt | Hgt]; symmetry.
      * destruct (Pos.compare_spec mx my) as [-> | Hm | Hm]; cbn [CompOpp];
          [apply Z.ltb_ge | apply Z.ltb_ge | apply Z.ltb_lt];
          rewrite <- !Pos2Z.opp_pos; nia.
      * pose proof (scaled_order mx my ex ey Hx' Hy' Hlt).
        apply Z.ltb_ge. rewrite <- !Pos2Z.opp_pos. lia.
      * pose proof (scaled_order my mx ey ex Hy' Hx' ltac:(lia)).
        apply Z.ltb_lt. rewrite <- !Pos2Z.opp_pos. lia.
    + symmetry. apply Z.ltb_lt. rewrite <- !Pos2Z.opp_pos. nia.
    + symmetry. apply Z.ltb_ge. rewrite <- !Pos2Z.opp_pos. nia.
    + destruct (Z.compare_spec ex ey) as [-> | Hlt | Hgt]; symmetry.
      * destruct (Pos.compare_spec mx my) as [-> | Hm | Hm];
          [apply Z.ltb_ge | apply Z.ltb_lt | apply Z.ltb_ge]; nia.
      * pose proof (scaled_order mx my ex ey Hx Hy Hlt).
        apply Z.ltb_lt. lia.
      * pose proof (scaled_order my mx ey ex Hy Hx ltac:(lia)).
        apply Z.ltb_ge. lia.
Qed.

Lemma toQ_scaled (f : float) (q : Q) :
  F64.toQ f = Some q ->
  exists v, SFscaled (Prim2SF f) = Some v /\ Qeq q (Qmake v unit_denominator).
Proof.
  unfold F64.toQ. pose proof (Prim2SF_valid f) as Hv.
  destruct (Prim2SF f) as [s|s| |s m e]; try discriminate.
  - intros [= <-]. exists 0. split; [reflexivity|]. reflexivity.
  - intros [= <-]. eexists. split; [reflexivity|].
    apply valid_binary_normal in Hv as (He & _).
    unfold Qeq, unit_denominator.
    assert (HD : Zpos (Z.to_pos (2 ^ 1074)) = 2 ^ 1074) by reflexivity.
    destruct (Z.leb_spec 0 e); cbn [Qnum Qden inject_Z].
    + rewrite HD, Z.mul_1_r, Z.pow_add_r by lia. lia.
    + rewrite HD, Z2Pos.id by (apply Z.pow_pos_nonneg; lia).
      replace 1074 with ((e + 1074) + (- e)) at 1 by lia.
      rewrite Z.pow_add_r by lia. lia.
Qed.

Lemma ltb_scaled (a b : float) (va vb : Z) :
  SFscaled (Prim2SF a) = Some va -> SFscaled (Prim2SF b) = Some vb ->
  (a <? b)%float = (va <? vb).
Proof.
  intros Ha Hb. rewrite ltb_spec.
  apply SFltb_scaled; auto using Prim2SF_valid.
Qed.

Lemma Qceiling_unique (x : Q) (n : Z) :
  (inject_Z (n - 1) < x)%Q -> (x <= inject_Z n)%Q -> Qceiling x = n.
Proof.
  intros Hlo Hhi.
  pose proof (Qle_ceiling x) as H1. pose proof (Qceiling_lt x) as H2.
  assert (Qceiling x - 1 < n).
  { rewrite Zlt_Qlt. eapply Qlt_le_trans; eassumption. }
  assert (n - 1 < Qceiling x).
  { rewrite Zlt_Qlt. eapply Qlt_le_trans; eassumption. }
  lia.
Qed.

Lemma Qceiling_quotient (vL vr n : Z) (D : positive) :
  0 < vr -> (n - 1) * vr < vL -> vL <= n * vr ->
  Qceiling (Qmake vL D / Qmake vr D) = n.
Proof.
  intros Hr Hlo Hhi. apply Qceiling_unique.
  - apply Qlt_shift_div_l.
    + unfold Qlt. cbn [Qnum Qden]. lia.
    + unfold Qlt, Qmult, inject_Z. cbn [Qnum Qden].
      rewrite Pos2Z.inj_mul. nia.
  - apply Qle_shift_div_r.
    + unfold Qlt. cbn [Qnum Qden]. lia.
    + unfold Qle, Qmult, inject_Z. cbn [Qnum Qden].
      rewrite Pos2Z.inj_mul. nia.
Qed.

Lemma exact_multiple_scaled (t res : float) (j : nat) :
  exact_multiple t res j ->
  exists vt vr,
    SFscaled (Prim2SF t) = Some vt /\ SFscaled (Prim2SF res) = Some vr /\
    vt = Z.of_nat j * vr.
Proof.
  unfold exact_multiple.
  destruct (F64.toQ t) as [q|] eqn:Et; [|done].
  destruct (F64.toQ res) as [r|] eqn:Er; [|done].
  intros H.
  destruct (toQ_scaled t q Et) as (vt & Hvt & Hqt).
  destruct (toQ_scaled res r Er) as (vr & Hvr & Hqr).
  exists vt, vr. split; [done|]. split; [done|].
  rewrite Hqt, Hqr in H. unfold Qeq, Qmult, inject_Z in H.
  cbn [Qnum Qden] in H. rewrite Pos2Z.inj_mul in H.
  assert (0 < Zpos unit_denominator) by lia. nia.
Qed.

Lemma count_is_ceiling (limit res : float) (n : nat) :
  (0 <? res)%float = true -> (0 <? limit)%float = true ->
  is_Some (F64.toQ limit) ->
  (forall j, (j < n)%nat -> (accumulate res j <? limit)%float = true) ->
  (accumulate res n <? limit)%float = false ->
  (forall j, (j <= n)%nat -> exact_multiple (accumulate res j) res j) ->
  ceil_quotient limit res = Some (Z.of_nat n).
Proof.
  intros Hres Hlim [L EL] Hlt Hge Hexact.
  destruct n as [|n].
  { change (accumulate res 0) with 0%float in Hge. congruence. }
  destruct (toQ_scaled limit L EL) as (vL & HvL & HqL).
  destruct (exact_multiple_scaled _ _ _ (Hexact n ltac:(lia)))
    as (v1 & vr & Hv1 & Hvr & E1).
  destruct (exact_multiple_scaled _ _ _ (Hexact (S n) ltac:(lia)))
    as (v2 & vr' & Hv2 & Hvr' & E2).
  assert (vr' = vr) by congruence. subst vr'.
  assert (H0 : SFscaled (Prim2SF 0%float) = Some 0) by reflexivity.
  rewrite (ltb_scaled _ _ _ _ H0 Hvr) in Hres. apply Z.ltb_lt in Hres.
  specialize (Hlt n ltac:(lia)).
  rewrite (ltb_scaled _ _ _ _ Hv1 HvL) in Hlt. apply Z.ltb_lt in Hlt.
  rewrite (ltb_scaled _ _ _ _ Hv2 HvL) in Hge. apply Z.ltb_ge in Hge.
  unfold ceil_quotient. rewrite EL.
  destruct (F64.toQ res) as [r|] eqn:Er.
  - destruct (toQ_scaled res r Er) as (vr2 & Hvr2 & Hqr).
    assert (vr2 = vr) by congruence. subst vr2.
    f_equal. rewrite HqL, Hqr.
    apply Qceiling_quotient; lia.
  - unfold SFscaled in Hvr. unfold F64.toQ in Er.
    destruct (Prim2SF res); discriminate.
Qed.

(** A sequence of sums that grows while it is below the bound reaches the
    bound. *)
Lemma accumulate_reaches (limit res : float) :
  (forall k,
      (forall j, (j <= k)%nat -> (accumulate res j <? limit)%float = true) ->
      (accumulate res k <? accumulate res (S k))%float = true) ->
  exists n,
    (forall j, (j < n)%nat -> (accumulate res j <? limit)%float = true) /\
    (accumulate res n <? limit)%float = false.
Proof.
  intros Hgrow.
  assert (H : forall (d : nat) (k : nat),
            2 ^ 64 - rank (accumulate res k) < Z.of_nat d ->
            (forall j, (j < k)%nat -> (accumulate res j <? limit)%float = true) ->
            exists n,
              (forall j, (j < n)%nat -> (accumulate res j <? limit)%float = true) /\
              (accumulate res n <? limit)%float = false).
  { induction d as [|d IH]; intros k Hd Hbelow.
    - pose proof (rank_bound (accumulate res k)). lia.
    - destruct (accumulate res k <? limit)%float eqn:E; [|eauto].
      assert (Hall : forall j, (j <= k)%nat ->
                (accumulate res j <? limit)%float = true).
      { intros j Hj. destruct (Nat.eq_dec j k) as [-> |]; [done|].
        apply Hbelow. lia. }
      pose proof (ltb_rank _ _ (Hgrow k Hall)) as Hr.
      apply (IH (S k)); [lia|].
      intros j Hj. apply Hall. lia. }
  apply (H (Z.to_nat (2 ^ 64 + 2 ^ 64 + 1)) 0%nat).
  - pose proof (rank_bound (accumulate res 0)). lia.
  - intros j Hj. lia.
Qed.

(** ** Sums of integers that are exact *)

Lemma iter_xO_value (q p : positive) :
  Zpos (Pos.iter xO q p) = Zpos q * 2 ^ Zpos p.
Proof.
  revert q. induction p using Pos.peano_ind; intros q.
  - simpl. lia.
  - rewrite Pos.iter_succ, Pos2Z.inj_succ, Z.pow_succ_r by lia.
    rewrite Pos2Z.inj_xO, IHp. lia.
Qed.

Lemma shr_exact (p : positive) : forall q,
  SpecFloat.iter_pos shr_1 p (Build_shr_record (Zpos (Pos.iter xO q p)) false false)
  = Build_shr_record (Zpos q) false false.
Proof.
  induction p as [p IH | p IH |]; intros q; simpl.
  - rewrite IH, IH. reflexivity.
  - rewrite IH, IH. reflexivity.
  - reflexivity.
Qed.

Lemma digits_53 (q : positive) :
  2 ^ 52 <= Zpos q < 2 ^ 53 -> Zpos (digits2_pos q) = 53.
Proof.
  intros H. rewrite digits2_pos_log2.
  rewrite (Z.log2_unique (Zpos q) 52); lia.
Qed.

Lemma digits_shifted (q p : positive) :
  2 ^ 52 <= Zpos q < 2 ^ 53 ->
  Zpos (digits2_pos (Pos.iter xO q p)) = 53 + Zpos p.
Proof.
  intros Hq. rewrite digits2_pos_log2, iter_xO_value.
  rewrite (Z.log2_unique (Zpos q * 2 ^ Zpos p) (52 + Zpos p)); try lia.
  rewrite Z.pow_succ_r, Z.pow_add_r by lia.
  assert (0 < 2 ^ Zpos p) by (apply Z.pow_pos_nonneg; lia). nia.
Qed.

(** A mantissa of 53 bits shifted left by [p] bits rounds to itself. *)
Lemma round_exact (q p : positive) :
  2 ^ 52 <= Zpos q < 2 ^ 53 -> Zpos p <= 1023 ->
  binary_round_aux prec emax false (Zpos (Pos.iter xO q p)) (-52) loc_Exact
  = S754_finite false q (Zpos p - 52).
Proof.
  intros Hq Hp.
  unfold binary_round_aux, shr_fexp, Zdigits2.
  rewrite (digits_shifted q p Hq). unfold fexp, SpecFloat.emin, prec, emax.
  replace (Z.max (53 + Z.pos p + -52 - 53) (3 - 1024 - 53) - -52)
    with (Zpos p) by lia.
  unfold shr, shr_record_of_loc. rewrite shr_exact.
  cbn [shr_m loc_of_shr_record round_nearest_even Zdigits2].
  rewrite (digits_53 q Hq).
  replace (Z.max (53 + (-52 + Z.pos p) - 53) (3 - 1024 - 53) - (-52 + Z.pos p))
    with 0 by lia.
  cbn [shr_m].
  destruct (Z.leb_spec (-52 + Z.pos p) (1024 - 53)); [|lia].
  f_equal; lia.
Qed.

Lemma shl_align_value (mx : positive) (ex ex' : Z) :
  ex' <= ex ->
  Zpos (fst (shl_align mx ex ex')) = Zpos mx * 2 ^ (ex - ex').
Proof.
  intros H. unfold shl_align.
  destruct (ex' - ex) as [|d|d] eqn:E; try lia.
  - replace (ex - ex') with 0 by lia.
    rewrite Z.pow_0_r, Z.mul_1_r. reflexivity.
  - cbn [fst]. rewrite iter_xO_value. f_equal; f_equal; lia.
Qed.

(** The sum of a float and 1, when it needs no rounding. *)
Lemma SF64add_one_exact (mx : positive) (ex : Z) (q p : positive) :
  -52 <= ex ->
  2 ^ 52 <= Zpos q < 2 ^ 53 -> Zpos p <= 1023 ->
  Zpos mx * 2 ^ (ex + 52) + 2 ^ 52 = Zpos q * 2 ^ Zpos p ->
  SF64add (S754_finite false mx ex) (S754_finite false 4503599627370496 (-52))
  = S754_finite false q (Zpos p - 52).
Proof.
  intros Hex Hq Hp Hsum. unfold SF64add, SFadd.
  replace (Z.min ex (-52)) with (-52) by lia.
  cbn [cond_Zopp].
  assert (E1 : Zpos (fst (shl_align mx ex (-52))) = Zpos mx * 2 ^ (ex + 52)).
  { rewrite shl_align_value by lia. f_equal; f_equal; lia. }
  assert (E2 : fst (shl_align 4503599627370496 (-52) (-52))
               = 4503599627370496%positive) by reflexivity.
  rewrite E2.
  assert (E : (fst (shl_align mx ex (-52)) + 4503599627370496)%positive
              = Pos.iter xO q p).
  { apply Pos2Z.inj. rewrite Pos2Z.inj_add, E1, iter_xO_value.
    change (Zpos 4503599627370496) with (2 ^ 52). exact Hsum. }
  change (Zpos (fst (shl_align mx ex (-52))) + Zpos 4503599627370496)
    with (Zpos (fst (shl_align mx ex (-52)) + 4503599627370496)).
  rewrite E. unfold binary_normalize, binary_round.
  rewrite (digits_shifted q p Hq).
  unfold shl_align, fexp, SpecFloat.emin, prec, emax.
  replace (Z.max (53 + Z.pos p + -52 - 53) (3 - 1024 - 53) - -52)
    with (Zpos p) by lia.
  apply round_exact; assumption.
Qed.

Lemma SFint_mantissa (n : Z) :
  1 <= n <= 2 ^ 53 ->
  0 <= Z.log2 n <= 53 /\
  2 ^ 52 <= Z.shiftl n (52 - Z.log2 n) < 2 ^ 53 /\
  Z.shiftl n (52 - Z.log2 n) * 2 ^ Z.log2 n = n * 2 ^ 52.
Proof.
  intros Hn.
  assert (Hl0 : 0 <= Z.log2 n) by apply Z.log2_nonneg.
  assert (Hl1 : Z.log2 n <= 53).
  { change 53 with (Z.log2 (2 ^ 53)). apply Z.log2_le_mono. lia. }
  destruct (Z.log2_spec n) as [Hlo Hhi]; [lia|].
  split; [lia|].
  destruct (Z.eq_dec (Z.log2 n) 53) as [E | Hne].
  - rewrite E in *. assert (n = 2 ^ 53) by lia. subst n.
    vm_compute. repeat split; discriminate.
  - rewrite Z.shiftl_mul_pow2 by lia.
    assert (HAB : 2 ^ Z.log2 n * 2 ^ (52 - Z.log2 n) = 2 ^ 52).
    { rewrite <- Z.pow_add_r by lia. f_equal. lia. }
    rewrite Z.pow_succ_r in Hhi by lia.
    assert (HB : 0 < 2 ^ (52 - Z.log2 n)) by (apply Z.pow_pos_nonneg; lia).
    change (2 ^ 53) with (2 * 2 ^ 52). clear Hn.
    revert Hlo Hhi HAB HB.
    generalize (2 ^ Z.log2 n) as A, (2 ^ (52 - Z.log2 n)) as B, (2 ^ 52) as C.
    intros. nia.
Qed.

Lemma SFint_valid (n : Z) :
  1 <= n <= 2 ^ 53 -> valid_binary (SFint n) = true.
Proof.
  intros Hn. destruct (SFint_mantissa n Hn) as (Hl & Hq & _).
  unfold SFint, SpecFloat.valid_binary, bounded, canonical_mantissa.
  rewrite digits_53 by (rewrite Z2Pos.id; lia).
  unfold fexp, SpecFloat.emin, prec, emax.
  apply andb_true_intro. split; [apply Z.eqb_eq | apply Z.leb_le]; lia.
Qed.

Lemma SFint_succ (n : Z) :
  1 <= n < 2 ^ 53 ->
  SF64add (SFint n) (S754_finite false 4503599627370496 (-52)) = SFint (n + 1).
Proof.
  intros Hn.
  destruct (SFint_mantissa n) as (Hl & Hq & Hv); [lia|].
  destruct (SFint_mantissa (n + 1)) as (Hl' & Hq' & Hv'); [lia|].
  assert (Hl1 : 1 <= Z.log2 (n + 1)).
  { pose proof (Z.log2_le_mono 2 (n + 1)) as H.
    change (Z.log2 2) with 1 in H. lia. }
  unfold SFint at 1 2.
  replace (Z.log2 (n + 1) - 52) with (Zpos (Z.to_pos (Z.log2 (n + 1))) - 52)
    by (rewrite Z2Pos.id; lia).
  apply SF64add_one_exact.
  - lia.
  - rewrite Z2Pos.id; lia.
  - rewrite Z2Pos.id; lia.
  - rewrite !Z2Pos.id by lia.
    replace (Z.log2 n - 52 + 52) with (Z.log2 n) by lia. lia.
Qed.

Lemma Prim2SF_Fint (n : Z) : 1 <= n <= 2 ^ 53 -> Prim2SF (Fint n) = SFint n.
Proof. intros H. apply Prim2SF_SF2Prim, SFint_valid, H. Qed.

Lemma Fint_succ (n : Z) :
  1 <= n < 2 ^ 53 -> (Fint n + 1)%float = Fint (n + 1).
Proof.
  intros Hn. apply Prim2SF_inj.
  rewrite add_spec, !Prim2SF_Fint by lia.
  change (Prim2SF 1%float) with (S754_finite false 4503599627370496 (-52)).
  apply SFint_succ, Hn.
Qed.

(** An integer up to [2^53] is below every float of exponent above 1. *)
Lemma Fint_below (n : Z) (L : float) (m : positive) (e : Z) :
  1 <= n <= 2 ^ 53 -> Prim2SF L = S754_finite false m e -> 1 < e ->
  (Fint n <? L)%float = true.
Proof.
  intros Hn HL He. rewrite ltb_spec, Prim2SF_Fint, HL by done.
  destruct (SFint_mantissa n Hn) as (Hl & _).
  unfold SFint, SFltb, SFcompare.
  destruct (Z.compare_spec (Z.log2 n - 52) e); (lia || done).
Qed.

Lemma count_up_step (n : Z) :
  0 <= n <= 2 ^ 53 ->
  (count_up n + 1)%float = count_up (Z.min (n + 1) (2 ^ 53)).
Proof.
  intros Hn. unfold count_up.
  destruct (Z.eqb_spec n 0) as [-> | Hn0]; [vm_compute; reflexivity|].
  destruct (Z.eqb_spec (Z.min (n + 1) (2 ^ 53)) 0); [lia|].
  destruct (Z.eq_dec n (2 ^ 53)) as [-> | Hne]; [vm_compute; reflexivity|].
  rewrite Z.min_l by lia. apply Fint_succ. lia.
Qed.

Lemma sample_times_stalls (L : float) (m : positive) (e : Z) :
  Prim2SF L = S754_finite false m e -> 1 < e ->
  forall fuel n, 0 <= n <= 2 ^ 53 ->
    sample_times fuel L 1%float (count_up n) = OutOfFuel.
Proof.
  intros HL He. induction fuel as [|fuel IH]; intros n Hn; simpl; [done|].
  assert (Hlt : (count_up n <? L)%float = true).
  { unfold count_up. destruct (Z.eqb_spec n 0) as [-> | Hn0].
    - rewrite ltb_spec, HL. reflexivity.
    - apply (Fint_below n L m e); [lia|done|done]. }
  rewrite Hlt, count_up_step by done.
  rewrite IH by lia. done.
Qed.

(** ** Claims on the loop over [t] *)

(** C8, as the claim states it, fails: with [cycles = 0.5] and
    [res = 1.0471975511965976] the loop takes 3 samples, for the third sum
    [res + res + res] rounds up to the bound; the quotient of the bound by
    [res] is above 3, so the claim counts 4, also with the real number pi in
    the place of [math.Pi], which lies between the two rationals below. *)
Lemma sample_count_not_ceiling :
  (0 <? cycles third_of_pi_flags)%float = true /\
  (0 <? res third_of_pi_flags)%float = true /\
  (exists ts,
     sample_times 10 (limit third_of_pi_flags) (res third_of_pi_flags) 0%float
     = Ok ts /\ length ts = 3%nat) /\
  ceil_quotient (limit third_of_pi_flags) (res third_of_pi_flags) = Some 4 /\
  sample_count_formula (3141592653589793 # 1000000000000000)
    (cycles third_of_pi_flags) (res third_of_pi_flags) = Some 4 /\
  sample_count_formula (3141592653589794 # 1000000000000000)
    (cycles third_of_pi_flags) (res third_of_pi_flags) = Some 4.
Proof.
  split; [reflexivity|]. split; [reflexivity|].
  split; [eexists; split; [vm_compute; reflexivity | reflexivity]|].
  split; [vm_compute; reflexivity|].
  split; vm_compute; reflexivity.
Qed.

(** C8, as the code has it: the loop takes its samples at [t = 0],
    [0 + res], [0 + res + res], ..., each sum rounded to a float, up to the
    first of these values that is not below the bound [cycles*2*math.Pi];
    when that is the value after [n] increments, there are exactly [n]
    samples, each below the bound, and the sweep paints the point of each
    of them. Where [res] and the bound are positive, the bound is finite
    and these sums are exact, [n] is the ceiling of the quotient of the
    bound by [res]. *)
Theorem sample_count_law (conv : float -> Z) (Sin : float -> float)
    (g : flags) (n fuel : nat) (lisa : canvas) :
  (forall j, (j < n)%nat -> (accumulate (res g) j <? limit g)%float = true) ->
  (accumulate (res g) n <? limit g)%float = false ->
  (n < fuel)%nat ->
  sample_times fuel (limit g) (res g) 0%float
  = Ok (accumulate (res g) <$> seq 0 n) /\
  length (accumulate (res g) <$> seq 0 n) = n /\
  Forall (fun t => (t <? limit g)%float = true) (accumulate (res g) <$> seq 0 n) /\
  sweep conv Sin fuel g 0%float lisa
  = for_range (plot conv Sin g) (accumulate (res g) <$> seq 0 n) lisa /\
  ((0 <? res g)%float = true -> (0 <? limit g)%float = true ->
   is_Some (F64.toQ (limit g)) ->
   (forall j, (j <= n)%nat -> exact_multiple (accumulate (res g) j) (res g) j) ->
   ceil_quotient (limit g) (res g) = Some (Z.of_nat n)).
Proof.
  intros Hlt Hge Hfuel.
  pose proof (sample_times_run (limit g) (res g) n fuel Hlt Hge Hfuel) as E.
  split; [done|]. split; [by rewrite length_fmap, length_seq|].
  split; [|split; [by apply sweep_samples|]].
  - apply Forall_fmap, Forall_forall. intros j Hj. simpl.
    apply Hlt. apply elem_of_seq in Hj. lia.
  - intros Hres Hlim Hfin Hexact. by apply count_is_ceiling.
Qed.

Lemma sample_count_law_witness :
  (sample_times 4 (limit third_of_pi_flags) (res third_of_pi_flags) 0%float
   = Ok (accumulate (res third_of_pi_flags) <$> seq 0 3) /\
   length (accumulate (res third_of_pi_flags) <$> seq 0 3) = 3%nat) /\
  (sample_times 5 (limit small_flags) (res small_flags) 0%float
   = Ok (accumulate (res small_flags) <$> seq 0 4) /\
   ceil_quotient (limit small_flags) (res small_flags) = Some 4).
Proof.
  split.
  - destruct (sample_count_law amd64_int_of_unrepresentable series_sin
                third_of_pi_flags 3 4 (zeros 200)) as (H1 & H2 & _).
    + intros j Hj. destruct j as [|[|[|j]]]; try reflexivity. lia.
    + reflexivity.
    + lia.
    + split; [exact H1 | exact H2].
  - destruct (sample_count_law amd64_int_of_unrepresentable series_sin
                small_flags 4 5 (zeros 6)) as (H1 & _ & _ & _ & H5).
    + intros j Hj. destruct j as [|[|[|[|j]]]]; try reflexivity. lia.
    + reflexivity.
    + lia.
    + split; [exact H1|]. apply H5.
      * reflexivity.
      * reflexivity.
      * eexists. vm_compute. reflexivity.
      * intros j Hj.
        destruct j as [|[|[|[|[|j]]]]]; try (vm_compute; reflexivity). lia.
Defined.

(** C9, as the claim states it, fails: with [res = 1] and [cycles = 1e16],
    [t] counts up to [2^53 = 9007199254740992], where [t + 1] rounds back
    to [t], below the bound of about [6.28e16]: the loop never ends,
    whatever the fuel. *)
Lemma sweep_stalls :
  (0 <? res stalled_flags)%float = true /\
  is_finite (cycles stalled_flags) = true /\
  forall fuel,
    sweep amd64_int_of_unrepresentable series_sin fuel stalled_flags 0%float
      (zeros 200) = OutOfFuel.
Proof.
  split; [reflexivity|]. split; [reflexivity|].
  intros fuel. apply (sweep_out_of_fuel _ _ _ _ (zeros 200)).
  - apply (sample_times_stalls (limit stalled_flags) 7853981633974483 3
             eq_refl ltac:(lia) fuel 0).
    lia.
  - apply saturated_zeros.
Qed.

(** C9, as the code has it: when [t] grows at each increment that the loop
    makes (the rounded sum [t + res] is above [t] for each value of [t]
    that the loop reaches below the bound), the loop ends: after some
    number [n] of samples the sweep returns, for every fuel above [n]. *)
Theorem sweep_terminates_while_t_grows (conv : float -> Z)
    (Sin : float -> float) (g : flags) (lisa : canvas) :
  (forall k,
      (forall j, (j <= k)%nat ->
                 (accumulate (res g) j <? limit g)%float = true) ->
      (accumulate (res g) k <? accumulate (res g) (S k))%float = true) ->
  square lisa -> cells_in 0 15 lisa ->
  exists n lisa',
    forall fuel, (n < fuel)%nat ->
      sample_times fuel (limit g) (res g) 0%float
      = Ok (accumulate (res g) <$> seq 0 n) /\
      sweep conv Sin fuel g 0%float lisa = Ok lisa'.
Proof.
  intros Hgrow Hsq Hin.
  destruct (accumulate_reaches (limit g) (res g) Hgrow) as (n & Hlt & Hge).
  assert (Hsat : saturated 15 lisa lisa).
  { split; [done|]. split; [done|]. split; [done|]. apply no_cell_lower_refl. }
  pose proof (sample_times_run (limit g) (res g) n (S n) Hlt Hge ltac:(lia)) as E.
  destruct (sweep_total conv Sin (S n) g lisa _ _ _ E Hsat) as (lisa' & E' & _).
  rewrite (sweep_samples conv Sin (S n) g _ _ _ E) in E'.
  exists n, lisa'. intros fuel Hfuel.
  pose proof (sample_times_run (limit g) (res g) n fuel Hlt Hge Hfuel) as Ef.
  split; [done|]. by rewrite (sweep_samples conv Sin fuel g _ _ _ Ef).
Qed.

Lemma sweep_terminates_while_t_grows_witness :
  exists n lisa',
    forall fuel, (n < fuel)%nat ->
      sample_times fuel (limit small_flags) (res small_flags) 0%float
      = Ok (accumulate (res small_flags) <$> seq 0 n) /\
      sweep amd64_int_of_unrepresentable series_sin fuel small_flags 0%float
        (zeros 6) = Ok lisa'.
Proof.
  apply (sweep_terminates_while_t_grows amd64_int_of_unrepresentable series_sin
           small_flags (zeros 6)).
  - intros k H. destruct k as [|[|[|[|k]]]]; try reflexivity.
    specialize (H 4%nat ltac:(lia)). vm_compute in H. discriminate H.
  - apply square_zeros.
  - apply cells_in_zeros. lia.
Defined.

(** ** Claims on the increments of the frequencies and phases *)


Lemma frame_vars (conv : float -> Z) (Sin : float -> float) (File error : Type)
    (fuel : nat) (i : Z) (st st' : state File error) :
  frame conv Sin fuel i st = Ok st' -> vars st' = advance (vars st).
Proof. intros E. by apply frame_next in E as (img & ->). Qed.





(** ** Examples of the loop over [t] *)

(** Where no sum is rounded, the number of samples is the ceiling of the
    quotient of the bound by the step. *)
Example sample_count_of_small_flags :
  sample_times 10 (limit small_flags) (res small_flags) 0%float
  = Ok [0%float; 1%float; 2%float; 3%float] /\
  ceil_quotient (limit small_flags) (res small_flags) = Some 4.
Proof. split; vm_compute; reflexivity. Qed.

(** Two cycles in steps of 0.01 take 1257 samples, the ceiling of the
    quotient, though the sums are rounded. *)
Example sample_count_of_two_cycles :
  exists ts,
    sample_times 1300 (2 * 2 * F64.Pi)%float 0.01%float 0%float = Ok ts /\
    length ts = 1257%nat /\
    ceil_quotient (2 * 2 * F64.Pi)%float 0.01%float = Some 1257.
Proof.
  eexists. split; [vm_compute; reflexivity|].
  split; vm_compute; reflexivity.
Qed.

(** * More of the program *)

(** ** [paint] on a grid of any shape *)

Lemma for_range_ext {A S : Type} (body body' : A -> S -> result S)
    (l : list A) (st : S) :
  (forall a s, body a s = body' a s) ->
  for_range body l st = for_range body' l st.
Proof.
  intros H. revert st. induction l as [|a l IH]; intros st; simpl; [done|].
  rewrite H. destruct (body' a st); simpl; auto.
Qed.

Lemma for_range_fmap {A B S : Type} (body : B -> S -> result S) (f : A -> B)
    (l : list A) (st : S) :
  for_range body (f <$> l) st = for_range (fun a st => body (f a) st) l st.
Proof.
  revert st. induction l as [|a l IH]; intros st; simpl; [done|].
  destruct (body (f a) st); simpl; auto.
Qed.

Lemma for_range_no_panic {A S : Type} (P : S -> Prop)
    (body : A -> S -> result S) (l : list A) :
  (forall a st, P st ->
     body a st <> Panic /\ forall st', body a st = Ok st' -> P st') ->
  forall st, P st -> for_range body l st <> Panic.
Proof.
  intros Hbody. induction l as [|a l IH]; intros st Hst; simpl; [done|].
  destruct (Hbody a st Hst) as [Hnp Hok].
  destruct (body a st) as [st'| |]; simpl; try done. apply IH. by apply Hok.
Qed.

Lemma Exists_or_not {A : Type} (P : A -> Prop) (l : list A) :
  (forall a, P a \/ ~ P a) -> Exists P l \/ ~ Exists P l.
Proof.
  intros HP. induction l as [|a l [IH | IH]].
  - right. by intros H%Exists_nil.
  - left. by right.
  - destruct (HP a) as [Ha | Ha]; [left; by left|].
    right. intros [H | H]%Exists_cons; tauto.
Qed.

Lemma beyond_row_dec (c : canvas) (ij : Z * Z) :
  beyond_row c ij \/ ~ beyond_row c ij.
Proof.
  unfold beyond_row.
  destruct (on_canvas_dec c ij) as [Hin | Hout]; [|tauto].
  destruct (c !! Z.to_nat ij.1) as [row|] eqn:E.
  - destruct (Z.le_gt_cases (len row) ij.2).
    + left. eauto.
    + right. intros (_ & row' & [= <-] & H'). lia.
  - right. intros (_ & row' & [=] & _).
Qed.

Lemma beyond_row_shape (c c' : canvas) (ij : Z * Z) :
  shape c = shape c' -> beyond_row c ij -> beyond_row c' ij.
Proof.
  unfold beyond_row, on_canvas, shape, len. intros Hs (Hin & row & Hrow & Hlen).
  assert (Hl : length c = length c').
  { by rewrite <- (length_fmap length c), Hs, length_fmap. }
  split; [lia|].
  assert (H : (length <$> c') !! Z.to_nat ij.1 = Some (length row)).
  { rewrite <- Hs, list_lookup_fmap, Hrow. done. }
  rewrite list_lookup_fmap in H.
  destruct (c' !! Z.to_nat ij.1) as [row'|]; [|done].
  injection H as H. exists row'. split; [done|]. lia.
Qed.

Lemma touch_beyond (maxVal : Z) (ij : Z * Z) (c : canvas) :
  beyond_row c ij -> touch maxVal ij c = Panic.
Proof.
  unfold beyond_row, on_canvas, touch. intros ([Hi Hj] & row & Hrow & Hlen).
  destruct (Z.leb_spec (len c) ij.1), (Z.ltb_spec ij.1 0); simpl; try lia.
  destruct (Z.leb_spec (len c) ij.2), (Z.ltb_spec ij.2 0); simpl; try lia.
  assert (E : index c ij.1 = Ok row) by (apply index_Ok; split; [lia|done]).
  rewrite E. simpl. unfold index.
  destruct (Z.ltb_spec ij.2 0); [lia|].
  destruct (Z.leb_spec (len row) ij.2); [|lia]. done.
Qed.

Lemma touch_within (maxVal : Z) (ij : Z * Z) (c : canvas) :
  ~ beyond_row c ij ->
  exists c', touch maxVal ij c = Ok c' /\ shape c' = shape c.
Proof.
  intros Hnb. destruct (on_canvas_dec c ij) as [Hin | Hout].
  - pose proof Hin as [Hi Hj]. unfold touch.
    destruct (Z.leb_spec (len c) ij.1), (Z.ltb_spec ij.1 0); simpl; try lia.
    destruct (Z.leb_spec (len c) ij.2), (Z.ltb_spec ij.2 0); simpl; try lia.
    destruct (index_in_range c ij.1 Hi) as (row & Er & Hrow).
    rewrite Er. simpl.
    destruct (Z.le_gt_cases (len row) ij.2) as [Hle | Hgt].
    { exfalso. apply Hnb. split; [done|]. eauto. }
    destruct (index_in_range row ij.2) as (v & Ev & Hv); [lia|].
    rewrite Ev. simpl. eexists. split; [done|].
    unfold shape. rewrite list_fmap_insert, length_insert.
    apply list_insert_id. by rewrite list_lookup_fmap, Hrow.
  - rewrite touch_outside by done. eauto.
Qed.

Lemma touches_shape (maxVal : Z) (l : list (Z * Z)) :
  forall c,
    (Exists (beyond_row c) l -> for_range (touch maxVal) l c = Panic) /\
    (~ Exists (beyond_row c) l ->
     exists c', for_range (touch maxVal) l c = Ok c' /\ shape c' = shape c).
Proof.
  induction l as [|ij l IH]; intros c.
  - split; [by intros H%Exists_nil | intros _; simpl; eauto].
  - destruct (beyond_row_dec c ij) as [Hb | Hnb].
    + split; [|intros H; exfalso; apply H; by left].
      intros _. simpl. by rewrite touch_beyond.
    + destruct (touch_within maxVal ij c Hnb) as (c1 & E1 & Hs1).
      destruct (IH c1) as [IHp IHo]. simpl. rewrite E1. simpl. split.
      * intros H. apply Exists_cons in H as [H | H]; [done|].
        apply IHp. eapply Exists_impl; [exact H|].
        intros ij' H'. by apply (beyond_row_shape c c1).
      * intros H. destruct IHo as (c' & E' & Hs').
        { intros H'. apply H. right. eapply Exists_impl; [exact H'|].
          intros ij' H''. by apply (beyond_row_shape c1 c). }
        exists c'. split; [done|]. congruence.
Qed.

Lemma touches_outside (maxVal : Z) (l : list (Z * Z)) (c : canvas) :
  Forall (fun ij => ~ on_canvas c ij) l ->
  for_range (touch maxVal) l c = Ok c.
Proof.
  induction 1 as [|ij l Hij _ IH]; simpl; [done|].
  by rewrite touch_outside.
Qed.

(** X1: on any grid, also one whose rows differ in length, [paint] panics
    when one of its nine candidate cells passes the two bounds checks, which
    compare both indices with the number of rows, and lies beyond the end of
    its row; it panics in no other case. *)
Theorem paint_panics_beyond_row (conv : float -> Z) (x y : float)
    (scale maxVal : Z) (c : canvas) :
  paint conv x y scale c maxVal = Panic <->
  Exists (beyond_row c) (candidates conv x y scale).
Proof.
  rewrite paint_candidates.
  destruct (touches_shape maxVal (candidates conv x y scale) c) as [Hp Ho].
  split; [|done]. intros E.
  destruct (Exists_or_not (beyond_row c) (candidates conv x y scale)
              (beyond_row_dec c)) as [H | H]; [done|].
  destruct (Ho H) as (c' & E' & _). congruence.
Qed.

(** X2: when [paint] returns, the grid has as many rows as before and every
    row is as long as it was, on any grid. *)
Theorem paint_keeps_shape (conv : float -> Z) (x y : float)
    (scale maxVal : Z) (c c' : canvas) :
  paint conv x y scale c maxVal = Ok c' -> shape c' = shape c.
Proof.
  rewrite paint_candidates. intros E.
  destruct (touches_shape maxVal (candidates conv x y scale) c) as [Hp Ho].
  destruct (Exists_or_not (beyond_row c) (candidates conv x y scale)
              (beyond_row_dec c)) as [H | H].
  - rewrite Hp in E; done.
  - destruct (Ho H) as (c1 & E1 & Hs). congruence.
Qed.

Lemma paint_keeps_shape_witness :
  shape (<[8%nat := <[8%nat := 9]> (replicate 20 0)]> (zeros 20)) =
  shape (zeros 20).
Proof.
  apply (paint_keeps_shape amd64_int_of_unrepresentable 0%float 0%float 8 15).
  vm_compute. reflexivity.
Defined.

(** ** The count of the candidate cells *)

Lemma hits_nil (i j : Z) : hits [] i j = 0.
Proof. done. Qed.

Lemma hits_cons (ij : Z * Z) (l : list (Z * Z)) (i j : Z) :
  hits (ij :: l) i j = (if decide (ij = (i, j)) then 1 else 0) + hits l i j.
Proof.
  unfold hits. rewrite filter_cons.
  destruct (decide (ij = (i, j))); simpl length; lia.
Qed.

Lemma hits_bounds (l : list (Z * Z)) (i j : Z) : 0 <= hits l i j <= len l.
Proof.
  unfold hits, len. pose proof (length_filter (fun ij => ij = (i, j)) l). lia.
Qed.

Lemma hits_Permutation (l l' : list (Z * Z)) (i j : Z) :
  l ≡ₚ l' -> hits l i j = hits l' i j.
Proof. unfold hits. by intros ->. Qed.

Lemma raised_raised (maxVal k1 k2 v : Z) :
  0 <= k1 -> 0 <= k2 ->
  raised maxVal k2 (raised maxVal k1 v) = raised maxVal (k1 + k2) v.
Proof.
  unfold raised. intros H1 H2.
  destruct (Z.eqb_spec k1 0), (Z.eqb_spec k2 0), (Z.eqb_spec (k1 + k2) 0);
    try lia; subst; rewrite ?Z.add_0_r; try done.
Qed.

Lemma increment_raised (v maxVal : Z) :
  Int.min_int <= v <= Int.max_int - 1 ->
  Int.min_int <= maxVal < Int.max_int ->
  min (Int.add v 1) maxVal = raised maxVal 1 v /\
  Int.min_int <= raised maxVal 1 v <= Int.max_int - 1.
Proof.
  intros Hv Hm. unfold Int.add. rewrite wrap_in_range by int_in_range.
  rewrite min_spec. unfold raised. simpl. lia.
Qed.

Lemma cell_on_canvas (c : canvas) (i j : nat) (v : Z) :
  square c -> cell c i j = Some v -> on_canvas c (Z.of_nat i, Z.of_nat j).
Proof.
  unfold square, cell, on_canvas, len. intros Hsq Hc.
  destruct (c !! i) as [row|] eqn:Hrow; [|done].
  pose proof (lookup_lt_Some _ _ _ Hrow).
  pose proof (lookup_lt_Some _ _ _ Hc).
  rewrite Forall_lookup in Hsq. specialize (Hsq _ _ Hrow). simpl. lia.
Qed.

Lemma cell_zeros (n i j : nat) :
  (i < n)%nat -> (j < n)%nat -> cell (zeros n) i j = Some 0.
Proof.
  intros Hi Hj. unfold cell, zeros.
  rewrite lookup_replicate_2 by done. by rewrite lookup_replicate_2.
Qed.

Lemma cells_in_weaken (lo hi lo' hi' : Z) (c : canvas) :
  lo' <= lo -> hi <= hi' -> cells_in lo hi c -> cells_in lo' hi' c.
Proof.
  unfold cells_in. intros Hlo Hhi H.
  eapply Forall_impl; [exact H|]. intros row Hrow. simpl in Hrow.
  eapply Forall_impl; [exact Hrow|]. intros v Hv. simpl in Hv. lia.
Qed.

Lemma countable_zeros (n : nat) : countable (zeros n).
Proof.
  split; [apply square_zeros|].
  apply (cells_in_weaken 0 15); [done | done | by apply cells_in_zeros].
Qed.

Lemma canvas_ext (c c' : canvas) :
  length c = length c' -> (forall i j, cell c i j = cell c' i j) -> c = c'.
Proof.
  intros Hl Hcell. apply list_eq. intros i.
  destruct (c !! i) as [row|] eqn:Hr, (c' !! i) as [row'|] eqn:Hr'.
  - f_equal. apply list_eq. intros j. specialize (Hcell i j).
    unfold cell in Hcell. by rewrite Hr, Hr' in Hcell.
  - apply lookup_lt_Some in Hr. apply lookup_ge_None in Hr'. lia.
  - apply lookup_lt_Some in Hr'. apply lookup_ge_None in Hr. lia.
  - done.
Qed.

(** One increment: the touched cell is raised once, the others stay. *)
Lemma touch_cell (maxVal : Z) (ij : Z * Z) (c : canvas) :
  countable c -> Int.min_int <= maxVal < Int.max_int ->
  exists c',
    touch maxVal ij c = Ok c' /\ countable c' /\
    length c' = length c /\
    forall i j,
      cell c' i j =
      raised maxVal (hits [ij] (Z.of_nat i) (Z.of_nat j)) <$> cell c i j.
Proof.
  intros [Hsq Hin] Hm. destruct (on_canvas_dec c ij) as [Hon | Hout].
  - destruct (touch_inside maxVal ij c Hsq Hon) as (row & v & Hr & Hv & ->).
    assert (Hcv : cell c (Z.to_nat ij.1) (Z.to_nat ij.2) = Some v).
    { unfold cell. by rewrite Hr. }
    destruct (increment_raised v maxVal) as [E Hb]; [|done|].
    { by apply (cell_cells_in _ _ _ _ _ _ Hin Hcv). }
    eexists. split; [done|]. split; [split|split].
    + by apply square_bump.
    + apply cells_in_bump; [done|done|]. by rewrite E.
    + by rewrite length_insert.
    + intros i j. rewrite (cell_bump c _ _ row v) by done.
      rewrite hits_cons, hits_nil. destruct Hon as [Hi Hj].
      destruct (decide (i = Z.to_nat ij.1 /\ j = Z.to_nat ij.2)) as [[-> ->]|Hne].
      * rewrite decide_True by (destruct ij; simpl in *; f_equal; lia).
        rewrite Hcv, E. done.
      * rewrite decide_False.
        2:{ intros ->. simpl in Hne. lia. }
        simpl. unfold raised. simpl. by destruct (cell c i j).
  - rewrite touch_outside by done. exists c. split; [done|].
    split; [done|]. split; [done|]. intros i j.
    destruct (cell c i j) as [v|] eqn:Hc; [|done].
    rewrite hits_cons, hits_nil, decide_False; [done|].
    intros ->. apply Hout. by apply (cell_on_canvas c i j v).
Qed.

(** A sequence of increments: every cell is raised by the number of the
    increments that name it. *)
Lemma touches_cells (maxVal : Z) (l : list (Z * Z)) :
  Int.min_int <= maxVal < Int.max_int ->
  forall c, countable c ->
    exists c',
      for_range (touch maxVal) l c = Ok c' /\ countable c' /\
      length c' = length c /\
      forall i j,
        cell c' i j =
        raised maxVal (hits l (Z.of_nat i) (Z.of_nat j)) <$> cell c i j.
Proof.
  intros Hm. induction l as [|ij l IH]; intros c Hc.
  - exists c. split; [done|]. split; [done|]. split; [done|].
    intros i j. by destruct (cell c i j).
  - destruct (touch_cell maxVal ij c Hc Hm) as (c1 & E1 & Hc1 & Hl1 & Hcell1).
    destruct (IH c1 Hc1) as (c' & E' & Hc' & Hl' & Hcell').
    exists c'. simpl. rewrite E1. simpl. split; [done|]. split; [done|].
    split; [congruence|]. intros i j. rewrite Hcell', Hcell1.
    destruct (cell c i j) as [v|]; [|done]. simpl. f_equal.
    rewrite raised_raised.
    + f_equal. rewrite (hits_cons ij l), hits_cons, hits_nil. lia.
    + apply hits_bounds.
    + apply hits_bounds.
Qed.

Lemma paints_taps (conv : float -> Z) (calls : list (float * float * Z))
    (maxVal : Z) (c : canvas) :
  paints conv calls maxVal c = for_range (touch maxVal) (taps conv calls) c.
Proof.
  unfold paints, taps. rewrite for_range_bind. apply for_range_ext.
  intros call c1. apply paint_candidates.
Qed.

(** X3: a sequence of calls of [paint] on a square grid raises every cell by
    the number of the candidate cells of the calls that are this cell, up to
    the cap: a cell that no candidate names stays as it is, also above the
    cap, and a cell that [k >= 1] candidates name goes from [v] to
    [min (v + k) maxVal]. The cells and the cap are any [int]s below the
    largest one. *)
Theorem paints_count_hits (conv : float -> Z)
    (calls : list (float * float * Z)) (maxVal : Z) (c : canvas) :
  square c -> cells_in Int.min_int (Int.max_int - 1) c ->
  Int.min_int <= maxVal < Int.max_int ->
  exists c',
    paints conv calls maxVal c = Ok c' /\
    forall i j,
      cell c' i j =
      raised maxVal (hits (taps conv calls) (Z.of_nat i) (Z.of_nat j))
        <$> cell c i j.
Proof.
  intros Hsq Hin Hm. rewrite paints_taps.
  destruct (touches_cells maxVal (taps conv calls) Hm c) as (c' & E & _ & _ & H).
  { by split. }
  eauto.
Qed.

Lemma paints_count_hits_witness :
  exists c',
    paints amd64_int_of_unrepresentable
      [(0%float, 0%float, 8); (0.5%float, (-0.25)%float, 8)] 15 (zeros 20)
    = Ok c' /\
    forall i j,
      cell c' i j =
      raised 15
        (hits (taps amd64_int_of_unrepresentable
                 [(0%float, 0%float, 8); (0.5%float, (-0.25)%float, 8)])
           (Z.of_nat i) (Z.of_nat j))
        <$> cell (zeros 20) i j.
Proof.
  apply paints_count_hits.
  - apply square_zeros.
  - exact (proj2 (countable_zeros 20)).
  - done.
Defined.

(** X4: the order of the calls of [paint] does not matter: two sequences of
    the same calls in different orders give the same grid. *)
Theorem paints_any_order (conv : float -> Z)
    (calls calls' : list (float * float * Z)) (maxVal : Z) (c : canvas) :
  square c -> cells_in Int.min_int (Int.max_int - 1) c ->
  Int.min_int <= maxVal < Int.max_int ->
  calls ≡ₚ calls' ->
  paints conv calls maxVal c = paints conv calls' maxVal c.
Proof.
  intros Hsq Hin Hm Hp. rewrite !paints_taps.
  destruct (touches_cells maxVal (taps conv calls) Hm c)
    as (c1 & -> & _ & Hl1 & H1); [by split|].
  destruct (touches_cells maxVal (taps conv calls') Hm c)
    as (c2 & -> & _ & Hl2 & H2); [by split|].
  f_equal. apply canvas_ext; [congruence|]. intros i j.
  rewrite H1, H2. f_equal. f_equal. apply hits_Permutation.
  unfold taps. by rewrite Hp.
Qed.

Lemma paints_any_order_witness :
  paints amd64_int_of_unrepresentable
    [(0%float, 0%float, 8); (0.5%float, (-0.25)%float, 8)] 15 (zeros 20) =
  paints amd64_int_of_unrepresentable
    [(0.5%float, (-0.25)%float, 8); (0%float, 0%float, 8)] 15 (zeros 20).
Proof.
  apply paints_any_order.
  - apply square_zeros.
  - exact (proj2 (countable_zeros 20)).
  - done.
  - apply perm_swap.
Defined.

(** ** Coordinates that are not numbers *)

Lemma int_of_nan (conv : float -> Z) (f : float) :
  Prim2SF f = S754_nan -> int_of_float conv f = Int.wrap (conv f).
Proof. intros H. unfold int_of_float, F64.trunc. by rewrite H. Qed.

Lemma nan_scaled_shifted (x s o : float) :
  Prim2SF x = S754_nan -> Prim2SF (x * s + o)%float = S754_nan.
Proof.
  intros H. rewrite add_spec, mul_spec, H. done.
Qed.

(** X5: on amd64, where the conversion to [int] of a float that is not a
    number yields the smallest [int], a call of [paint] with such a
    coordinate and a scale that is not negative changes nothing, on any
    grid: its nine candidate cells are all below 0 on that axis. *)
Theorem paint_drops_nan (x y : float) (scale maxVal : Z) (c : canvas) :
  Prim2SF x = S754_nan \/ Prim2SF y = S754_nan ->
  0 <= scale <= Int.max_int ->
  paint amd64_int_of_unrepresentable x y scale c maxVal = Ok c.
Proof.
  intros Hnan Hs. rewrite paint_candidates. apply touches_outside.
  assert (E : Int.add scale (Int.wrap Int.min_int) < 0).
  { unfold Int.add. rewrite (wrap_in_range Int.min_int) by int_in_range.
    rewrite wrap_in_range by int_in_range. int_in_range. }
  unfold candidates, offsets. simpl.
  repeat apply Forall_cons_2; try apply Forall_nil_2;
    unfold on_canvas; simpl; destruct Hnan as [H | H];
    rewrite ?(int_of_nan _ _ (nan_scaled_shifted x _ _ H)),
            ?(int_of_nan _ _ (nan_scaled_shifted y _ _ H));
    unfold amd64_int_of_unrepresentable; lia.
Qed.

Lemma paint_drops_nan_witness :
  paint amd64_int_of_unrepresentable nan 0.5%float 8 (zeros 20) 15
  = Ok (zeros 20).
Proof. apply paint_drops_nan; [by left | done]. Defined.

(** ** What a sweep leaves in the pixel array *)

Lemma sweep_paints (conv : float -> Z) (Sin : float -> float) (fuel : nat)
    (g : flags) (t : float) (ts : list float) (lisa : canvas) :
  sample_times fuel (limit g) (res g) t = Ok ts ->
  sweep conv Sin fuel g t lisa = paints conv (curve Sin g ts) 15 lisa.
Proof.
  intros Hts. rewrite (sweep_samples conv Sin fuel g t ts lisa Hts).
  unfold paints, curve. by rewrite for_range_fmap.
Qed.

(** X6: the pixel array that a sweep leaves counts, in each cell, the
    candidate cells of its samples that are this cell, up to 15. *)
Theorem sweep_counts_hits (conv : float -> Z) (Sin : float -> float)
    (fuel : nat) (g : flags) (ts : list float) (n : nat) :
  sample_times fuel (limit g) (res g) 0%float = Ok ts ->
  exists lisa,
    sweep conv Sin fuel g 0%float (zeros n) = Ok lisa /\
    forall i j, (i < n)%nat -> (j < n)%nat ->
      cell lisa i j =
      Some (Z.min (hits (taps conv (curve Sin g ts)) (Z.of_nat i) (Z.of_nat j))
                  15).
Proof.
  intros Hts. rewrite (sweep_paints conv Sin fuel g _ ts _ Hts), paints_taps.
  destruct (touches_cells 15 (taps conv (curve Sin g ts))) with (c := zeros n)
    as (lisa & E & _ & _ & H); [done | apply countable_zeros |].
  exists lisa. split; [done|]. intros i j Hi Hj.
  rewrite H, cell_zeros by done. simpl. f_equal. unfold raised.
  pose proof (hits_bounds (taps conv (curve Sin g ts)) (Z.of_nat i) (Z.of_nat j)).
  destruct (Z.eqb_spec (hits (taps conv (curve Sin g ts)) (Z.of_nat i)
                          (Z.of_nat j)) 0); lia.
Qed.

Lemma sweep_counts_hits_witness :
  exists lisa,
    sweep amd64_int_of_unrepresentable series_sin 5 small_flags 0%float
      (zeros 6) = Ok lisa /\
    forall i j, (i < 6)%nat -> (j < 6)%nat ->
      cell lisa i j =
      Some (Z.min (hits (taps amd64_int_of_unrepresentable
                           (curve series_sin small_flags
                              [0%float; 1%float; 2%float; 3%float]))
                     (Z.of_nat i) (Z.of_nat j))
                  15).
Proof. apply sweep_counts_hits. reflexivity. Defined.

(** ** Steps and bounds at the edge *)

Lemma shr_1_nonneg (mrs : shr_record) :
  0 <= shr_m mrs -> 0 <= shr_m (shr_1 mrs).
Proof.
  destruct mrs as [m r s]. simpl.
  destruct m as [|[p|p|]|p]; simpl; lia.
Qed.

Lemma iter_shr_1_nonneg (p : positive) (mrs : shr_record) :
  0 <= shr_m mrs -> 0 <= shr_m (SpecFloat.iter_pos shr_1 p mrs).
Proof.
  revert mrs. induction p as [p IH|p IH|]; intros mrs H; simpl.
  - apply IH, IH. by apply shr_1_nonneg.
  - by apply IH, IH.
  - by apply shr_1_nonneg.
Qed.

Lemma shr_fexp_nonneg (prec emax m e : Z) (l : location) :
  0 <= m -> 0 <= shr_m (shr_fexp prec emax m e l).1.
Proof.
  intros H. unfold shr_fexp, shr.
  assert (H0 : 0 <= shr_m (shr_record_of_loc m l)).
  { by destruct l as [|[]]. }
  destruct (fexp prec emax (Zdigits2 m + e) - e); simpl; try done.
  by apply iter_shr_1_nonneg.
Qed.

Lemma round_nearest_even_nonneg (m : Z) (l : location) :
  0 <= m -> 0 <= round_nearest_even m l.
Proof.
  intros H. destruct l as [|[]]; simpl; try lia.
  destruct (Z.even m); lia.
Qed.

(** Rounding keeps the sign. *)
Lemma binary_round_aux_signed (prec emax : Z) (sx : bool) (mx ex : Z)
    (lx : location) :
  0 <= mx -> SFsigned sx (binary_round_aux prec emax sx mx ex lx).
Proof.
  intros H. unfold binary_round_aux.
  pose proof (shr_fexp_nonneg prec emax mx ex lx H) as H1.
  destruct (shr_fexp prec emax mx ex lx) as [mrs' e']. simpl in H1.
  pose proof (shr_fexp_nonneg prec emax
                (round_nearest_even (shr_m mrs') (loc_of_shr_record mrs'))
                e' loc_Exact
                (round_nearest_even_nonneg _ _ H1)) as H2.
  destruct (shr_fexp prec emax _ e' loc_Exact) as [mrs'' e'']. simpl in H2.
  destruct (shr_m mrs'') as [|m|m]; simpl; try done; try lia.
  by destruct (e'' <=? emax - prec).
Qed.

Lemma binary_round_signed (prec emax : Z) (sx : bool) (mx : positive) (ex : Z) :
  SFsigned sx (binary_round prec emax sx mx ex).
Proof.
  unfold binary_round.
  destruct (shl_align mx ex _) as [mz ez].
  by apply binary_round_aux_signed.
Qed.

Lemma SFadd_nonpositive (x y : spec_float) :
  SFnonpositive x -> SFnonpositive y -> SFnonpositive (SF64add x y).
Proof.
  destruct x as [sx|sx| |sx mx ex], y as [sy|sy| |sy my ey]; simpl;
    try done; intros Hx Hy; subst; try done.
  - by destruct sx, sy.
  - set (a := (shl_align mx ex (Z.min ex ey)).1).
    set (b := (shl_align my ey (Z.min ex ey)).1).
    change (cond_Zopp true (Z.pos a) + cond_Zopp true (Z.pos b))
      with (Z.neg (a + b)).
    unfold binary_normalize.
    pose proof (binary_round_signed prec emax true (a + b) (Z.min ex ey)) as H.
    by destruct (binary_round prec emax true (a + b) (Z.min ex ey)).
Qed.

Lemma SFltb_nonpositive (x l : spec_float) :
  SFltb (S754_zero false) l = true -> SFnonpositive x -> SFltb x l = true.
Proof.
  unfold SFltb.
  destruct x as [sx|sx| |sx mx ex], l as [sl|sl| |sl ml el]; simpl;
    try done; intros Hl Hx; subst; try done.
  - by destruct sl.
  - by destruct sl.
Qed.

Lemma SFleb_nonpositive (x : spec_float) :
  SFleb x (S754_zero false) = true -> SFnonpositive x.
Proof.
  unfold SFleb. destruct x as [sx|sx| |sx mx ex]; simpl; try done.
  - by destruct sx.
  - by destruct sx.
Qed.

Lemma SFltb_zero_false (x : spec_float) :
  SFltb (S754_zero false) x = false <-> SFnot_positive x.
Proof.
  unfold SFltb. destruct x as [s|[]| |[] m e]; simpl; split; done.
Qed.

Lemma SFmul_not_positive (x : spec_float) (m : positive) (e : Z) :
  SFnot_positive x -> SFnot_positive (SF64mul x (S754_finite false m e)).
Proof.
  destruct x as [s|s| |s mx ex]; simpl; try done.
  - intros ->. done.
  - intros ->. simpl.
    pose proof (binary_round_aux_signed prec emax true
                  (Z.pos (mx * m)) (ex + e) loc_Exact) as H.
    destruct (binary_round_aux prec emax true (Z.pos (mx * m)) (ex + e)
                loc_Exact); try done; by apply H.
Qed.

Lemma limit_not_above_zero (g : flags) :
  (0 <? cycles g)%float = false -> (0 <? limit g)%float = false.
Proof.
  rewrite !ltb_spec. change (Prim2SF 0) with (S754_zero false).
  rewrite !SFltb_zero_false. unfold limit. rewrite !mul_spec.
  intros H. by do 2 apply SFmul_not_positive.
Qed.

Lemma sample_times_never_ends (limit res : float) :
  (0 <? limit)%float = true -> (res <=? 0)%float = true ->
  forall fuel t,
    SFnonpositive (Prim2SF t) -> sample_times fuel limit res t = OutOfFuel.
Proof.
  intros Hl Hr. rewrite ltb_spec in Hl. rewrite leb_spec in Hr.
  apply SFleb_nonpositive in Hr.
  induction fuel as [|fuel IH]; intros t Ht; simpl; [done|].
  rewrite ltb_spec, (SFltb_nonpositive _ _ Hl Ht).
  rewrite IH; [done|]. rewrite add_spec. by apply SFadd_nonpositive.
Qed.

Lemma sample_times_no_panic (fuel : nat) (limit res : float) :
  forall t, sample_times fuel limit res t <> Panic.
Proof.
  induction fuel as [|fuel IH]; intros t; simpl; [done|].
  destruct (t <? limit)%float; [|done].
  specialize (IH (t + res)%float).
  by destruct (sample_times fuel limit res (t + res)%float).
Qed.

Lemma ltb_zero_plus (res limit : float) :
  (0 + res <? limit)%float = (res <? limit)%float.
Proof.
  rewrite !ltb_spec, add_spec. change (Prim2SF 0) with (S754_zero false).
  destruct (Prim2SF res) as [s|s| |s m e]; try done.
  by destruct s.
Qed.

(** X7: when the step is not below the bound, as a step that is too large,
    that is infinite or that is not a number, the sweep paints the point of
    [t = 0] and nothing else. *)
Theorem sweep_single_sample (conv : float -> Z) (Sin : float -> float)
    (fuel : nat) (g : flags) (lisa : canvas) :
  (0 <? limit g)%float = true -> (res g <? limit g)%float = false ->
  sweep conv Sin (S (S fuel)) g 0%float lisa = plot conv Sin g 0%float lisa.
Proof.
  intros Hl Hr. simpl. rewrite Hl, ltb_zero_plus, Hr.
  by destruct (plot conv Sin g 0%float lisa).
Qed.

Lemma sweep_single_sample_witness :
  sweep amd64_int_of_unrepresentable series_sin 2 wide_step_flags 0%float
    (zeros 6) =
  plot amd64_int_of_unrepresentable series_sin wide_step_flags 0%float
    (zeros 6).
Proof. apply sweep_single_sample; reflexivity. Defined.

(** X8: with a step that is zero or negative and a bound above zero, [t]
    never reaches the bound: for a size from 1 to [2^23], for which the
    image and the pixel array can be made, the loop of the first frame does
    not end, whatever the fuel, and [lissajous] does not return. *)
Theorem lissajous_hangs_without_progress (conv : float -> Z)
    (Sin : float -> float) (File error : Type)
    (EncodeAll : File -> GIF -> option error) (fuel : nat) (out : File)
    (g : flags) :
  0 < size g <= 2 ^ 23 -> 0 < nframes g ->
  (0 <? limit g)%float = true -> (res g <=? 0)%float = true ->
  lissajous conv Sin EncodeAll fuel out g = OutOfFuel.
Proof.
  intros Hsize Hn Hl Hr. unfold lissajous, frames.
  rewrite seqZ_cons by done. simpl.
  rewrite frame_unfold by done. simpl.
  rewrite (sweep_out_of_fuel conv Sin fuel g (zeros (Z.to_nat (2 * size g)))).
  - done.
  - by apply sample_times_never_ends.
  - apply saturated_zeros.
Qed.

Lemma lissajous_hangs_without_progress_witness :
  lissajous amd64_int_of_unrepresentable series_sin accept_all 1000 tt
    zero_step_flags = OutOfFuel.
Proof.
  apply lissajous_hangs_without_progress; try reflexivity. done.
Defined.

(** ** Images with the same pixels *)

Lemma image_ext (w h : Z) (img img' : Paletted) :
  0 < w -> 0 <= h -> w * h <= Int.max_int ->
  well_formed w h img -> well_formed w h img' ->
  (forall x y, 0 <= x < w -> 0 <= y < h -> pixel img x y = pixel img' x y) ->
  img = img'.
Proof.
  intros Hw Hh Hwh Hwf Hwf' Hpix.
  assert (HP : Pix img = Pix img').
  { apply list_eq. intros k.
    destruct (decide (Z.of_nat k < w * h)) as [Hk | Hk].
    - pose proof (Z.mod_pos_bound (Z.of_nat k) w Hw) as Hx.
      assert (Hy : 0 <= Z.of_nat k / w < h).
      { split; [apply Z.div_pos; lia|]. apply Z.div_lt_upper_bound; lia. }
      assert (E : Z.of_nat k / w * w + Z.of_nat k mod w = Z.of_nat k).
      { pose proof (Z.div_mod (Z.of_nat k) w). lia. }
      specialize (Hpix _ _ Hx Hy). unfold pixel in Hpix.
      destruct (PixOffset_well_formed w h Hw Hh Hwh img _ _ Hwf Hx Hy)
        as [Ho _].
      destruct (PixOffset_well_formed w h Hw Hh Hwh img' _ _ Hwf' Hx Hy)
        as [Ho' _].
      rewrite Ho, Ho', E, Nat2Z.id in Hpix. done.
    - destruct Hwf as (_ & _ & HL & _), Hwf' as (_ & _ & HL' & _).
      unfold len in *.
      rewrite !(proj2 (lookup_ge_None _ _)) by lia. done. }
  destruct Hwf as (HR & HS & _ & HPal), Hwf' as (HR' & HS' & _ & HPal').
  destruct img, img'. simpl in *. congruence.
Qed.

Lemma render_zeros (size : Z) :
  0 < size <= 2 ^ 30 ->
  render (blank (2 * size + 1) (2 * size - 1)) (zeros (Z.to_nat (2 * size))) =
  Ok (blank (2 * size + 1) (2 * size - 1)).
Proof.
  intros Hsize.
  assert (Hn : 2 <= 2 * size <= 2 ^ 31) by lia.
  destruct (render_bounds (2 * size) Hn) as (Hw & Hh & Hwh).
  assert (Hb : well_formed (2 * size + 1) (2 * size - 1)
                 (blank (2 * size + 1) (2 * size - 1))).
  { apply well_formed_blank. nia. }
  destruct (render_spec (2 * size) (zeros (Z.to_nat (2 * size))) Hn)
    with (img0 := blank (2 * size + 1) (2 * size - 1))
    as (img & -> & Hwf & Hpix); try done.
  - apply square_zeros.
  - unfold len, zeros. rewrite length_replicate. lia.
  - apply cells_in_zeros. lia.
  - f_equal. apply (image_ext (2 * size + 1) (2 * size - 1)); try done.
    intros x y Hx Hy. rewrite Hpix by done.
    destruct (Z.ltb_spec x (2 * size)); [|done].
    rewrite cell_zeros by lia. symmetry. by apply pixel_blank.
Qed.

(** X9: with a number of cycles that is zero, negative or not a number, the
    bound of the loop over [t] is not above zero and no point is painted:
    for a size from 1 to [2^23], for which the image and the pixel array
    can be made, the loop over the frames builds [nframes] blank images, all
    pixels of colour 0. *)
Theorem frames_blank_without_cycles (conv : float -> Z) (Sin : float -> float)
    (File error : Type) (fuel : nat) (g : flags) :
  0 < size g <= 2 ^ 23 -> (0 <? cycles g)%float = false ->
  exists st,
    frames conv Sin File error (S fuel) g = Ok st /\
    Image (anim st) =
    replicate (Z.to_nat (nframes g))
      (blank (2 * size g + 1) (2 * size g - 1)).
Proof.
  intros Hsize Hc. apply limit_not_above_zero in Hc.
  destruct (Z.le_gt_cases 0 (nframes g)) as [Hn | Hn].
  - destruct (for_range_seqZ_total
      (fun k (st : state File error) =>
         size (vars st) = size g /\ limit (vars st) = limit g /\
         Image (anim st) =
         replicate (Z.to_nat k) (blank (2 * size g + 1) (2 * size g - 1)))
      (frame conv Sin (S fuel)) (nframes g)
      (mkState g (mkGIF [] [] (nframes g)) []))
      as (st & E & _ & _ & HI); try done.
    + intros k st Hk (HS & HL & HI).
      rewrite frame_unfold by (by rewrite HS).
      simpl. rewrite HL, Hc. simpl. rewrite HS, render_zeros by lia. simpl.
      eexists. split; [done|]. split; [done|]. split; [done|]. simpl.
      rewrite HI. replace (Z.to_nat (k + 1)) with (S (Z.to_nat k)) by lia.
      by rewrite replicate_S_end.
    + eauto.
  - exists (mkState g (mkGIF [] [] (nframes g)) []). unfold frames.
    rewrite seqZ_nil by lia. split; [done|]. simpl.
    by replace (Z.to_nat (nframes g)) with 0%nat by lia.
Qed.

Lemma frames_blank_without_cycles_witness :
  exists st,
    frames amd64_int_of_unrepresentable series_sin unit string 1
      no_cycle_flags = Ok st /\
    Image (anim st) = replicate 2 (blank 7 5).
Proof.
  apply (frames_blank_without_cycles amd64_int_of_unrepresentable series_sin
           unit string 0 no_cycle_flags); [done | reflexivity].
Defined.

(** X10: the image of a frame does not show the last cell of the rows of the
    pixel array, [lisa[x][2*size-1]]: two arrays that differ there only give
    the same image. *)
Theorem render_drops_last_cells (size : Z) (lisa lisa' : canvas) :
  0 < size <= 2 ^ 30 ->
  square lisa -> len lisa = 2 * size -> cells_in 0 15 lisa ->
  square lisa' -> len lisa' = 2 * size -> cells_in 0 15 lisa' ->
  (forall i j, (Z.of_nat j < 2 * size - 1) ->
     cell lisa i j = cell lisa' i j) ->
  render (blank (2 * size + 1) (2 * size - 1)) lisa =
  render (blank (2 * size + 1) (2 * size - 1)) lisa'.
Proof.
  intros Hsize Hsq Hlen Hin Hsq' Hlen' Hin' Hcell.
  assert (Hn : 2 <= 2 * size <= 2 ^ 31) by lia.
  destruct (render_bounds (2 * size) Hn) as (Hw & Hh & Hwh).
  assert (Hb : well_formed (2 * size + 1) (2 * size - 1)
                 (blank (2 * size + 1) (2 * size - 1))).
  { apply well_formed_blank. nia. }
  destruct (render_spec (2 * size) lisa Hn Hsq Hlen Hin _ Hb)
    as (img & -> & Hwf & Hpix).
  destruct (render_spec (2 * size) lisa' Hn Hsq' Hlen' Hin' _ Hb)
    as (img' & -> & Hwf' & Hpix').
  f_equal. apply (image_ext (2 * size + 1) (2 * size - 1)); try done.
  intros x y Hx Hy. rewrite Hpix, Hpix' by done.
  destruct (x <? 2 * size); [|done]. apply Hcell. lia.
Qed.

Lemma render_drops_last_cells_witness :
  render (blank 3 1) [[3; 0]; [5; 0]] = render (blank 3 1) [[3; 15]; [5; 7]].
Proof.
  apply (render_drops_last_cells 1); try done.
  - repeat constructor.
  - repeat constructor; lia.
  - repeat constructor.
  - repeat constructor; lia.
  - intros i j Hj. assert (j = 0%nat) as -> by lia.
    by destruct i as [|[|i]].
Defined.

(** ** Sizes outside the usual range *)

(** X11: with a negative size and one frame or more, [lissajous] panics in
    the first frame, before any point is painted: the corners of the
    rectangle are swapped, so that the image may be created, but the length
    of the pixel array, [2*size], is negative. *)
Theorem lissajous_panics_on_negative_size (conv : float -> Z)
    (Sin : float -> float) (File error : Type)
    (EncodeAll : File -> GIF -> option error) (fuel : nat) (out : File)
    (g : flags) :
  - 2 ^ 62 <= size g < 0 -> 0 < nframes g ->
  lissajous conv Sin EncodeAll fuel out g = Panic.
Proof.
  intros Hsize Hn. unfold lissajous, frames.
  rewrite seqZ_cons by done. simpl. unfold frame. simpl.
  unfold NewPaletted.
  destruct (_ || _ || _); simpl; [done|].
  destruct (make 1 0 _) as [pix| |] eqn:Epix; simpl; [|done|].
  - unfold make_lisa, make, Int.mul. rewrite wrap_in_range by int_in_range.
    destruct (Z.ltb_spec (2 * size g) 0); [done | lia].
  - unfold make in Epix. by destruct (_ || _).
Qed.

Lemma lissajous_panics_on_negative_size_witness :
  lissajous amd64_int_of_unrepresentable series_sin accept_all 10 tt
    negative_size_flags = Panic.
Proof. apply lissajous_panics_on_negative_size; done. Defined.

Lemma frame_picture (conv : float -> Z) (Sin : float -> float)
    (File error : Type) (fuel : nat) (i : Z) (st : state File error) :
  frame conv Sin fuel i st =
  img ← picture conv Sin fuel (vars st); Ok (next_state i st img).
Proof.
  unfold frame, picture.
  destruct (NewPaletted _ _) as [img| |]; simpl; try done.
  destruct (make_lisa _) as [lisa| |]; simpl; try done.
  by destruct (sweep _ _ _ _ _ _).
Qed.

Lemma on_canvas_empty (ij : Z * Z) : ~ on_canvas [] ij.
Proof. unfold on_canvas, len. simpl. lia. Qed.

Lemma paint_empty (conv : float -> Z) (x y : float) (scale maxVal : Z) :
  paint conv x y scale [] maxVal = Ok [].
Proof.
  rewrite paint_candidates. apply touches_outside.
  apply Forall_forall. intros ij _. apply on_canvas_empty.
Qed.

Lemma sweep_empty (conv : float -> Z) (Sin : float -> float) (fuel : nat)
    (g : flags) (ts : list float) (t : float) :
  sample_times fuel (limit g) (res g) t = Ok ts ->
  sweep conv Sin fuel g t [] = Ok [].
Proof.
  intros Hts. rewrite (sweep_samples conv Sin fuel g t ts [] Hts).
  destruct (for_range_invariant (fun c : canvas => c = [])
              (plot conv Sin g) ts) with (st := @nil (list Z))
    as (c' & -> & ->); try done.
  intros t' c ->. exists []. split; [apply paint_empty | done].
Qed.

Lemma picture_size_zero (conv : float -> Z) (Sin : float -> float)
    (fuel : nat) (g : flags) (ts : list float) :
  size g = 0 ->
  sample_times fuel (limit g) (res g) 0%float = Ok ts ->
  picture conv Sin fuel g = Ok single_pixel.
Proof.
  intros HS Hts. unfold picture. rewrite HS.
  change (NewPaletted _ palette) with (Ok single_pixel).
  change (make_lisa (Int.mul 2 0)) with (Ok (@nil (list Z))).
  simpl. by rewrite (sweep_empty conv Sin fuel g ts).
Qed.

(** X12: with the size 0 nothing panics: the pixel array is empty, [paint]
    finds every cell outside it, and each frame is an image of one pixel of
    colour 0, whose rectangle goes from (0, -1) to (1, 0). *)
Theorem frames_of_size_zero (conv : float -> Z) (Sin : float -> float)
    (File error : Type) (fuel : nat) (g : flags) (ts : list float) :
  size g = 0 ->
  sample_times fuel (limit g) (res g) 0%float = Ok ts ->
  exists st,
    frames conv Sin File error fuel g = Ok st /\
    Image (anim st) = replicate (Z.to_nat (nframes g)) single_pixel.
Proof.
  intros HS Hts.
  destruct (Z.le_gt_cases 0 (nframes g)) as [Hn | Hn].
  - destruct (for_range_seqZ_total
      (fun k (st : state File error) =>
         vars st = Nat.iter (Z.to_nat k) advance g /\
         Image (anim st) = replicate (Z.to_nat k) single_pixel)
      (frame conv Sin fuel) (nframes g)
      (mkState g (mkGIF [] [] (nframes g)) []))
      as (st & E & _ & HI); try done.
    + intros k st Hk (Hv & HI).
      destruct (same_config_iter (Z.to_nat k) g)
        as (_ & _ & Hsz & _ & _ & Hres & _).
      pose proof (limit_iter (Z.to_nat k) g) as Hlim.
      rewrite <- Hv in Hsz, Hres, Hlim.
      rewrite frame_picture, (picture_size_zero conv Sin fuel (vars st) ts)
        by congruence.
      simpl. eexists. split; [done|]. simpl.
      replace (Z.to_nat (k + 1)) with (S (Z.to_nat k)) by lia.
      split; [by rewrite Hv|]. rewrite HI. by rewrite replicate_S_end.
    + eauto.
  - exists (mkState g (mkGIF [] [] (nframes g)) []). unfold frames.
    rewrite seqZ_nil by lia. split; [done|]. simpl.
    by replace (Z.to_nat (nframes g)) with 0%nat by lia.
Qed.

Lemma frames_of_size_zero_witness :
  exists st,
    frames amd64_int_of_unrepresentable series_sin unit string 10
      size_zero_flags = Ok st /\
    Image (anim st) = replicate 2 single_pixel.
Proof.
  apply (frames_of_size_zero amd64_int_of_unrepresentable series_sin
           unit string 10 size_zero_flags
           [0%float; 1%float; 2%float; 3%float]); reflexivity.
Defined.

(** ** No index out of range *)

Lemma frame_no_panic (conv : float -> Z) (Sin : float -> float)
    (File error : Type) (fuel : nat) (i : Z) (st : state File error) :
  0 < size (vars st) <= 2 ^ 23 -> frame conv Sin fuel i st <> Panic.
Proof.
  intros Hsize. rewrite frame_unfold by done.
  pose proof (sample_times_no_panic fuel (limit (vars st)) (res (vars st))
                0%float) as Hnp.
  destruct (sample_times fuel (limit (vars st)) (res (vars st)) 0%float)
    as [ts| |] eqn:Hts; [| done |].
  - destruct (sweep_total conv Sin fuel (vars st)
                (zeros (Z.to_nat (2 * size (vars st)))) _ ts _ Hts
                (saturated_zeros _))
      as (lisa & -> & Hsq & Hlen & Hin & _).
    simpl. destruct (render_shows (size (vars st)) lisa) as (img & -> & _);
      try done; [lia|].
    unfold len. rewrite Hlen. unfold zeros. rewrite length_replicate. lia.
  - rewrite (sweep_out_of_fuel conv Sin fuel (vars st)
               (zeros (Z.to_nat (2 * size (vars st))))); try done.
    apply saturated_zeros.
Qed.

(** X13: for a size from 1 to [2^23], [lissajous] does not panic, whatever
    the other flags and whatever [math.Sin] and the conversion to [int] do:
    the image and the pixel array are within the largest allocation, and no
    index of the pixel array, of the palette or of the image is out of
    range. *)
Theorem lissajous_never_panics (conv : float -> Z) (Sin : float -> float)
    (File error : Type) (EncodeAll : File -> GIF -> option error)
    (fuel : nat) (out : File) (g : flags) :
  0 < size g <= 2 ^ 23 ->
  lissajous conv Sin EncodeAll fuel out g <> Panic.
Proof.
  intros Hsize. unfold lissajous.
  assert (H : frames conv Sin File error fuel g <> Panic).
  { unfold frames.
    apply (for_range_no_panic (fun st => size (vars st) = size g)); [|done].
    intros i st HS. split.
    - apply frame_no_panic. by rewrite HS.
    - intros st' E. apply frame_vars in E. by rewrite E. }
  by destruct (frames conv Sin File error fuel g).
Qed.

Lemma lissajous_never_panics_witness :
  lissajous amd64_int_of_unrepresentable series_sin accept_all 10 tt
    small_flags <> Panic.
Proof. apply lissajous_never_panics. done. Defined.

(** ** Frames without drift *)

Lemma add_zero (v : float) :
  Prim2SF v <> S754_zero true -> (v + 0)%float = v.
Proof.
  intros H. apply Prim2SF_inj. rewrite add_spec.
  change (Prim2SF 0) with (S754_zero false).
  destruct (Prim2SF v) as [[]|[]| |s m e]; done.
Qed.

Lemma advance_steady (g : flags) : steady g -> advance g = g.
Proof.
  intros (E1 & E2 & E3 & E4 & H1 & H2 & H3 & H4). unfold advance.
  rewrite E1, E2, E3, E4, !add_zero by done.
  destruct g. simpl in *. congruence.
Qed.

(** X14: with the four increments 0 every frame is computed from the same
    flags: all the images of the animation are the same image. *)
Theorem frames_repeat_without_drift (conv : float -> Z) (Sin : float -> float)
    (File error : Type) (fuel : nat) (g : flags) (st : state File error) :
  steady g ->
  frames conv Sin File error fuel g = Ok st ->
  forall i j img img',
    Image (anim st) !! i = Some img -> Image (anim st) !! j = Some img' ->
    img = img'.
Proof.
  intros Hg E.
  assert (H : Forall (fun img => picture conv Sin fuel g = Ok img)
                (Image (anim st))).
  { unfold frames in E.
    destruct (Z.le_gt_cases 0 (nframes g)) as [Hn | Hn].
    - apply (for_range_seqZ_partial
        (fun k (st : state File error) =>
           vars st = g /\
           Forall (fun img => picture conv Sin fuel g = Ok img)
             (Image (anim st)))
        (frame conv Sin fuel) (nframes g) _ st Hn) in E;
        [by destruct E | by split |].
      intros k s s' Hk [Hv HF] Ek. rewrite frame_picture, Hv in Ek.
      destruct (picture conv Sin fuel g) as [img| |] eqn:Ep; try done.
      simpl in Ek. injection Ek as <-. simpl. rewrite Hv.
      split; [by apply advance_steady|].
      apply Forall_app. split; [done|]. by apply Forall_singleton.
    - rewrite seqZ_nil in E by lia. injection E as <-. simpl. done. }
  intros i j img img' Hi Hj. rewrite Forall_lookup in H.
  pose proof (H _ _ Hi). pose proof (H _ _ Hj). congruence.
Qed.

Lemma frames_repeat_without_drift_witness :
  exists st : state unit string,
    frames amd64_int_of_unrepresentable series_sin unit string 10 still_flags
    = Ok st /\
    forall i j img img',
      Image (anim st) !! i = Some img -> Image (anim st) !! j = Some img' ->
      img = img'.
Proof.
  eexists. split; [vm_compute; reflexivity|].
  apply (frames_repeat_without_drift amd64_int_of_unrepresentable series_sin
           unit string 10 still_flags).
  - repeat split; try reflexivity; vm_compute; discriminate.
  - vm_compute. reflexivity.
Defined.

(** ** What [main] prints *)

Lemma frames_printed (conv : float -> Z) (Sin : float -> float)
    (File error : Type) (fuel : nat) (g : flags) (st : state File error) :
  frames conv Sin File error fuel g = Ok st ->
  printed st = (fun i => Rendered_frame i (nframes g)) <$> seqZ 0 (nframes g).
Proof.
  unfold frames. intros E.
  destruct (Z.le_gt_cases 0 (nframes g)) as [Hn | Hn].
  - apply (for_range_seqZ_partial
      (fun k (st : state File error) =>
         nframes (vars st) = nframes g /\
         printed st = (fun i => Rendered_frame i (nframes g)) <$> seqZ 0 k)
      (frame conv Sin fuel) (nframes g) _ st Hn) in E; [by destruct E|done|].
    intros j s s' Hj [HN HP] Ej. apply frame_next in Ej as (img & ->).
    simpl. split; [done|].
    rewrite seqZ_snoc, fmap_app, HP, HN by lia. done.
  - rewrite seqZ_nil in E |- * by lia. by injection E as <-.
Qed.

(** X15: all that [main] prints, in order: the error of [os.Create] when
    there is one; the progress line of each frame, from 0; the last line;
    then the encoder is called, once, on the file that [os.Create] returned
    and on the animation of the frames, and the error of the encoder is
    printed when there is one. *)
Theorem main_output (conv : float -> Z) (Sin : float -> float)
    (File error : Type) (EncodeAll : File -> GIF -> option error)
    (os_Create : string -> File * option error) (fuel : nat) (g : flags) :
  main conv Sin EncodeAll os_Create fuel g =
  st ← frames conv Sin File error fuel g;
  let f := (os_Create (outFile g)).1 in
  Ok (match (os_Create (outFile g)).2 with
      | Some e => [Could_not_open (outFile g) e]
      | None => []
      end ++
      ((fun i => Rendered_frame i (nframes g)) <$> seqZ 0 (nframes g)) ++
      [Rendered_frame (nframes g) (nframes g); Encoded f (anim st)] ++
      match EncodeAll f (anim st) with
      | Some e => [Error_encoding e]
      | None => []
      end).
Proof.
  unfold main, lissajous. destruct (os_Create (outFile g)) as [f err].
  destruct (frames conv Sin File error fuel g) as [st| |] eqn:E; try done.
  simpl. rewrite (frames_printed _ _ _ _ _ _ _ E).
  by rewrite <- !app_assoc.
Qed.

(** ** The colours of the palette *)

(** X16: the palette has a colour for each value of a cell, from 0 to the
    cap 15 that [lissajous] gives to [paint], and its colours differ: the
    search of [Paletted.Set] for the colour [palette[v]] ends on the index
    [v]. *)
Theorem palette_round_trip (v : Z) :
  0 <= v <= 15 ->
  exists c, index palette v = Ok c /\ Index palette c = v.
Proof.
  intros Hv. destruct (index_palette_in_range v Hv) as (c & Hc).
  exists c. split; [done|]. by apply Index_palette in Hc as [-> _].
Qed.

Lemma palette_round_trip_witness :
  exists c, index palette 15 = Ok c /\ Index palette c = 15.
Proof. apply palette_round_trip. lia. Defined.
